(** * HyperIsle [emergency_fix.py]: the file-structure and logging rewrite

    A shallow embedding of [fix_file_structure] and the properties of its
    line classification, body rewrite, import reconciliation and write-back.

    Python [str] values are sequences of Unicode code points: [str] is
    [list N].  The file system maps a path to the decoded text of a file;
    text-mode reading applies universal-newline translation and text-mode
    writing translates each line feed into [os.linesep].  Decoding errors
    and directories are outside the embedding; the loop at the bottom of the
    script runs over the sequence of triples that [os.walk] yields. *)

From Stdlib Require Import NArith String Ascii Sorting.Sorted.
From stdpp Require Import base list sorting gmap.

Local Open Scope string_scope.
Local Open Scope N_scope.
Local Open Scope list_scope.

(** ** Python strings *)

Module Py.

(** A character is its code point; a string is the list of its characters. *)
Abbreviation char := N (only parsing).
Abbreviation str := (list N) (only parsing).

(** A literal of the source, written as a Rocq string. *)
Definition lit (s : string) : str := map N_of_ascii (list_ascii_of_string s).

Definition LF : char := 10.
Definition CR : char := 13.
Definition DQ : char := 34.

(** [str.isspace] on one code point, as CPython's [_PyUnicode_IsWhitespace]:
    these are the characters [str.strip()] removes. *)
Definition is_space (c : char) : bool :=
  ((9 <=? c) && (c <=? 13)) || ((28 <=? c) && (c <=? 32))
  || (c =? 133) || (c =? 160) || (c =? 5760)
  || ((8192 <=? c) && (c <=? 8202))
  || (c =? 8232) || (c =? 8233) || (c =? 8239) || (c =? 8287) || (c =? 12288).

Fixpoint lstrip (s : str) : str :=
  match s with
  | [] => []
  | c :: s' => if is_space c then lstrip s' else s
  end.

Fixpoint rstrip (s : str) : str :=
  match s with
  | [] => []
  | c :: s' =>
      match rstrip s' with
      | [] => if is_space c then [] else [c]
      | r => c :: r
      end
  end.

(** [s.strip()] *)
Definition strip (s : str) : str := rstrip (lstrip s).

(** [s.startswith(p)] *)
Fixpoint startswith (s p : str) {struct p} : bool :=
  match p with
  | [] => true
  | x :: p' =>
      match s with
      | [] => false
      | y :: s' => (x =? y) && startswith s' p'
      end
  end.

(** [s.endswith(p)] *)
Definition endswith (s p : str) : bool := startswith (rev s) (rev p).

(** [p in s] for strings: [p] occurs in [s] as a contiguous substring. *)
Fixpoint contains (p s : str) : bool :=
  startswith s p ||
  match s with
  | [] => false
  | _ :: s' => contains p s'
  end.

(** [s.replace(old, new)] for a non-empty [old]: occurrences are found from
    left to right and do not overlap.  [skip] counts the characters of the
    occurrence just replaced that are still to be passed over. *)
Fixpoint replace_from (old new : str) (skip : nat) (s : str) : str :=
  match s with
  | [] => []
  | c :: s' =>
      match skip with
      | S k => replace_from old new k s'
      | O =>
          if startswith s old
          then new ++ replace_from old new (pred (length old)) s'
          else c :: replace_from old new O s'
      end
  end.

(** [s.replace(old, new)]; with an empty [old] Python puts [new] before
    every character and at the end. *)
Definition replace (old new s : str) : str :=
  match old with
  | [] => new ++ flat_map (fun c => c :: new) s
  | _ :: _ => replace_from old new O s
  end.

(** [f.readlines()] on text whose newlines were already translated: the
    text is cut after every line feed, and the line feed stays on its line. *)
Fixpoint readlines (s : str) : list str :=
  match s with
  | [] => []
  | c :: s' =>
      if c =? LF then [c] :: readlines s'
      else match readlines s' with
           | [] => [[c]]
           | l :: ls => (c :: l) :: ls
           end
  end.

(** Universal newlines on reading (the default [newline=None]): CR LF and
    a lone CR both become LF. *)
Fixpoint universal_newlines (s : str) : str :=
  match s with
  | [] => []
  | c :: s' =>
      if c =? CR
      then LF :: match s' with
                 | d :: s'' => if d =? LF then universal_newlines s''
                               else universal_newlines s'
                 | [] => []
                 end
      else c :: universal_newlines s'
  end.

(** Text-mode writing: every LF becomes [linesep]. *)
Definition write_newlines (linesep : str) (s : str) : str :=
  flat_map (fun c => if c =? LF then linesep else [c]) s.

(** Code-point order on strings, the order of [sorted] on [str]. *)
Fixpoint str_leb (a b : str) : bool :=
  match a, b with
  | [], _ => true
  | _ :: _, [] => false
  | x :: a', y :: b' =>
      if x <? y then true
      else if x =? y then str_leb a' b' else false
  end.

Definition str_le (a b : str) : Prop := str_leb a b = true.

#[global] Instance str_le_dec a b : Decision (str_le a b).
Proof. unfold str_le. apply _. Defined.

(** [sorted(xs)] on strings. *)
Definition sorted (xs : list str) : list str := merge_sort str_le xs.

End Py.

Import Py.

#[local] Arguments N.eqb : simpl never.
#[local] Arguments N.ltb : simpl never.
#[local] Arguments N.leb : simpl never.

(** ** The literals of [fix_file_structure] *)

Definition kw_package : str := Eval cbv in lit "package ".
Definition kw_import : str := Eval cbv in lit "import ".
Definition line_comment : str := Eval cbv in lit "//".
Definition block_open : str := Eval cbv in lit "/*".
Definition block_star : str := Eval cbv in lit "*".
Definition old_import : str := Eval cbv in lit "import android.util.Log".
Definition new_import : str := Eval cbv in lit "import com.coni.hyperisle.util.HiLog".
Definition hilog_dot : str := Eval cbv in lit "HiLog.".
Definition hihilog : str := Eval cbv in lit "HiHiLog".
Definition hilog : str := Eval cbv in lit "HiLog".

(** ** 1. Parse: the classification loop *)

(** The five local variables the loop updates. *)
Record ParseState := mkParse {
  package_line : option str;
  imports : gset str;
  other_lines : list str;
  header_comments : list str;
  package_found : bool
}.

Definition parse_init : ParseState :=
  mkParse None ∅ [] [] false.

(** The test of line 31 on the stripped line: a line comment, a block
    comment opener, a block comment continuation, or nothing at all. *)
Definition comment_or_blank (stripped : str) : bool :=
  startswith stripped line_comment || startswith stripped block_open
  || startswith stripped block_star
  || match stripped with [] => true | _ => false end.

(** One iteration of [for line in lines]. *)
Definition parse_line (st : ParseState) (line : str) : ParseState :=
  let stripped := strip line in
  if startswith stripped kw_package then
    mkParse (Some line) (imports st) (other_lines st) (header_comments st) true
  else if startswith stripped kw_import then
    mkParse (package_line st) ({[ stripped ]} ∪ imports st) (other_lines st)
            (header_comments st) (package_found st)
  else if negb (package_found st) && comment_or_blank stripped then
    mkParse (package_line st) (imports st) (other_lines st)
            (header_comments st ++ [line]) (package_found st)
  else
    mkParse (package_line st) (imports st) (other_lines st ++ [line])
            (header_comments st) (package_found st).

Definition parse (lines : list str) : ParseState :=
  foldl parse_line parse_init lines.

(** ** 2. Fix content: the doubled prefix and the known call patterns *)

(** The twelve [body.replace] calls of lines 90 to 101, in order. *)
Definition known_patterns : list (str * str) := Eval cbv in
  [ (lit "Log.d(TAG,", lit "HiLog.d(HiLog.TAG_ISLAND,");
    (lit "Log.i(TAG,", lit "HiLog.i(HiLog.TAG_ISLAND,");
    (lit "Log.w(TAG,", lit "HiLog.w(HiLog.TAG_ISLAND,");
    (lit "Log.e(TAG,", lit "HiLog.e(HiLog.TAG_ISLAND,");
    (lit "Log.d(" ++ [DQ] ++ lit "HyperIsleIsland" ++ [DQ] ++ lit ",",
     lit "HiLog.d(HiLog.TAG_ISLAND,");
    (lit "Log.w(" ++ [DQ] ++ lit "HyperIsleIsland" ++ [DQ] ++ lit ",",
     lit "HiLog.w(HiLog.TAG_ISLAND,");
    (lit "Log.e(" ++ [DQ] ++ lit "HyperIsleIsland" ++ [DQ] ++ lit ",",
     lit "HiLog.e(HiLog.TAG_ISLAND,");
    (lit "Log.d(" ++ [DQ] ++ lit "HyperIsle" ++ [DQ] ++ lit ",",
     lit "HiLog.d(HiLog.TAG_ISLAND,");
    (lit "Log.w(" ++ [DQ] ++ lit "HyperIsle" ++ [DQ] ++ lit ",",
     lit "HiLog.w(HiLog.TAG_ISLAND,");
    (lit "Log.d(" ++ [DQ] ++ lit "HI_NOTIF" ++ [DQ] ++ lit ",",
     lit "HiLog.d(HiLog.TAG_NOTIF,");
    (lit "Log.d(" ++ [DQ] ++ lit "HI_CALL" ++ [DQ] ++ lit ",",
     lit "HiLog.d(HiLog.TAG_CALL,");
    (lit "Log.d(" ++ [DQ] ++ lit "HI_INPUT" ++ [DQ] ++ lit ",",
     lit "HiLog.d(HiLog.TAG_INPUT,") ].

(** The keys of [tag_map] (lines 52 to 61).  The dictionary is only read by
    [log_replacer], and [log_replacer] is never called: neither takes part
    in the rewrite. *)
Definition tag_map_keys : list str := Eval cbv in
  [ [DQ] ++ lit "HyperIsleIsland" ++ [DQ];
    [DQ] ++ lit "HyperIsle" ++ [DQ];
    [DQ] ++ lit "HyperIsleAnchor" ++ [DQ];
    [DQ] ++ lit "HI_NOTIF" ++ [DQ];
    [DQ] ++ lit "HI_CALL" ++ [DQ];
    [DQ] ++ lit "HI_INPUT" ++ [DQ];
    [DQ] ++ lit "HI_WHATSAPP" ++ [DQ];
    lit "TAG" ].

(** Line 47 followed by lines 90 to 101. *)
Definition fix_content (body : str) : str :=
  let body := replace hihilog hilog body in
  foldl (fun b pr => replace (fst pr) (snd pr) b) body known_patterns.

(** ** 3. Reconstruct imports *)

Definition reconstruct_imports (imports : gset str) (body : str) : list str :=
  let imports :=
    if decide (old_import ∈ imports) then imports ∖ {[ old_import ]}
    else imports in
  let imports :=
    if contains hilog_dot body && bool_decide (new_import ∉ imports)
    then {[ new_import ]} ∪ imports
    else imports in
  sorted (elements imports).

(** ** 4. Write back *)

(** The observable world: the text files, the lines printed so far, and the
    paths opened for writing so far. *)
Record World := mkWorld {
  files : gmap str str;
  stdout : list str;
  opened_w : list str
}.

(** [open(filepath, 'w')]: the file is created or truncated. *)
Definition open_w (filepath : str) (w : World) : World :=
  mkWorld (<[ filepath := [] ]> (files w)) (stdout w) (opened_w w ++ [filepath]).

Section WriteBack.
Variable linesep : str.

(** [f.write(s)] on the file opened at [filepath]. *)
Definition f_write (filepath s : str) (w : World) : World :=
  mkWorld (alter (fun old => old ++ write_newlines linesep s) filepath (files w))
          (stdout w) (opened_w w).

(** [f.writelines(ls)] *)
Definition f_writelines (filepath : str) (ls : list str) (w : World) : World :=
  foldl (fun w l => f_write filepath l w) w ls.

(** [print(msg)] *)
Definition print (msg : str) (w : World) : World :=
  mkWorld (files w) (stdout w ++ [msg]) (opened_w w).

Definition write_back (filepath : str) (header : list str) (pkg : str)
    (sorted_imports : list str) (body : str) (w : World) : World :=
  let w := open_w filepath w in
  let w := f_writelines filepath header w in
  let w := f_write filepath pkg w in
  let w := if endswith pkg [LF] then w else f_write filepath [LF] w in
  let w := f_write filepath [LF] w in
  let w := foldl (fun w imp => f_write filepath (imp ++ [LF]) w) w sorted_imports in
  let w := f_write filepath [LF] w in
  f_write filepath body w.

(** ** [fix_file_structure] *)

Definition fix_file_structure (filepath : str) (w : World) : World :=
  match files w !! filepath with
  | None => w
  | Some raw =>
      let lines := readlines (universal_newlines raw) in
      let st := parse lines in
      match package_line st with
      | None => w
      | Some [] => w
      | Some pkg =>
          let body := fix_content (concat (other_lines st)) in
          let sorted_imports := reconstruct_imports (imports st) body in
          let w := write_back filepath (header_comments st) pkg
                              sorted_imports body w in
          print (lit "Fixed " ++ filepath) w
      end
  end.

End WriteBack.

(** ** Facts about the string primitives *)

Section StringFacts.
Implicit Types (s p t old new : str) (c x : char).

Lemma startswith_spec s p : startswith s p = true ↔ ∃ t, s = p ++ t.
Proof.
  revert s. induction p as [|x p IH]; intros s; simpl.
  - split; [intros _; by exists s | done].
  - destruct s as [|y s]; simpl.
    + split; [done | intros [t Ht]; discriminate].
    + rewrite andb_true_iff, N.eqb_eq, IH. split.
      * intros [-> [t ->]]. eauto.
      * intros [t Ht]. injection Ht as -> ->. eauto.
Qed.

Lemma startswith_app s t : startswith (s ++ t) s = true.
Proof. apply startswith_spec. eauto. Qed.

Lemma startswith_nil p : startswith [] p = true → p = [].
Proof. destruct p; [done | discriminate]. Qed.

Lemma contains_spec p s : contains p s = true ↔ ∃ a b, s = a ++ p ++ b.
Proof.
  induction s as [|c s IH]; simpl.
  - rewrite orb_false_r. split.
    + intros H%startswith_nil. subst p. by exists [], [].
    + intros (a & b & H). symmetry in H.
      apply app_eq_nil in H as [-> H]. apply app_eq_nil in H as [-> _]. done.
  - rewrite orb_true_iff, startswith_spec, IH. split.
    + intros [[t Ht] | (a & b & ->)].
      * exists [], t. done.
      * exists (c :: a), b. done.
    + intros (a & b & H). destruct a as [|c' a]; simpl in H.
      * left. eauto.
      * right. injection H as -> ->. eauto.
Qed.

Lemma contains_app_l p a b : contains p a = true → contains p (a ++ b) = true.
Proof.
  rewrite !contains_spec. intros (u & v & ->). exists u, (v ++ b).
  by rewrite <- !app_assoc.
Qed.

Lemma contains_app_r p a b : contains p b = true → contains p (a ++ b) = true.
Proof.
  rewrite !contains_spec. intros (u & v & ->). exists (a ++ u), v.
  by rewrite <- !app_assoc.
Qed.

Lemma contains_false_app_l p a b :
  contains p (a ++ b) = false → contains p a = false.
Proof.
  intros H. destruct (contains p a) eqn:E; [|done].
  by rewrite (contains_app_l _ _ b E) in H.
Qed.

Lemma contains_false_app_r p a b :
  contains p (a ++ b) = false → contains p b = false.
Proof.
  intros H. destruct (contains p b) eqn:E; [|done].
  by rewrite (contains_app_r _ a _ E) in H.
Qed.

(** The counter of [replace_from] passes over [skip] characters. *)
Lemma replace_from_skip old new k s :
  replace_from old new k s = replace_from old new O (drop k s).
Proof.
  revert k. induction s as [|c s IH]; intros [|k]; simpl; auto.
Qed.

(** The equations of [str.replace] with a non-empty pattern. *)
Lemma replace_nil old new : replace old new [] = if old is [] then new else [].
Proof. destruct old; simpl; [by rewrite app_nil_r | done]. Qed.

Lemma replace_hit old new s :
  old ≠ [] → startswith s old = true →
  replace old new s = new ++ replace old new (drop (length old) s).
Proof.
  intros Hold Hs. destruct old as [|x old]; [done|].
  destruct s as [|c s]; [discriminate|].
  unfold replace. cbn [replace_from]. rewrite Hs.
  by rewrite replace_from_skip.
Qed.

Lemma replace_miss old new c s :
  old ≠ [] → startswith (c :: s) old = false →
  replace old new (c :: s) = c :: replace old new s.
Proof.
  intros Hold Hs. destruct old as [|x old]; [done|].
  unfold replace. cbn [replace_from]. by rewrite Hs.
Qed.

(** Without an occurrence nothing changes. *)
Lemma replace_absent old new s :
  contains old s = false → replace old new s = s.
Proof.
  destruct old as [|x old].
  { destruct s; discriminate. }
  induction s as [|c s IH]; [done|].
  cbn [contains]. intros [H1 H2]%orb_false_iff.
  rewrite replace_miss by done. by rewrite IH.
Qed.

End StringFacts.

Section ReplaceFacts.
Implicit Types (s p t old new a b : str) (c x : char).

(** An occurrence is replaced: the replacement text is in the result. *)
Lemma replace_present old new s :
  old ≠ [] → contains old s = true →
  ∃ a b, replace old new s = a ++ new ++ b.
Proof.
  intros Hold. induction s as [|c s IH]; cbn [contains].
  - rewrite orb_false_r. intros H%startswith_nil. done.
  - destruct (startswith (c :: s) old) eqn:E; simpl.
    + intros _. rewrite replace_hit by done. by exists [], (replace old new (drop (length old) (c :: s))).
    + intros H. rewrite replace_miss by done.
      destruct (IH H) as (a & b & ->). by exists (c :: a), b.
Qed.

Lemma replace_present_contains old new s :
  old ≠ [] → contains old s = true → contains new (replace old new s) = true.
Proof.
  intros Hold H. apply contains_spec. by apply replace_present.
Qed.

(** A character that is not the first of the pattern is copied. *)
Lemma replace_cons_other old new x s :
  head old ≠ Some x → old ≠ [] →
  replace old new (x :: s) = x :: replace old new s.
Proof.
  intros Hx Hold. apply replace_miss; [done|].
  destruct old as [|y old]; [done|]. simpl.
  destruct (N.eqb_spec y x) as [->|]; [done | done].
Qed.

(** No occurrence reaches across a character that the tail of the pattern
    does not have. *)
Lemma startswith_app_sep old a x b :
  x ∉ tl old → a ≠ [] → startswith (a ++ x :: b) old = true →
  startswith a old = true ∧ (length old ≤ length a)%nat.
Proof.
  intros Hx Ha [t Ht]%startswith_spec.
  apply app_eq_inv in Ht as [(k & -> & _) | (k & -> & Hk)].
  - split; [apply startswith_app | rewrite length_app; lia].
  - destruct k as [|y k].
    + rewrite app_nil_r. split; [|lia].
      apply startswith_spec. exists []. by rewrite app_nil_r.
    + simpl in Hk. injection Hk as <- _. exfalso. apply Hx.
      destruct a as [|c a]; [done|]. simpl. apply elem_of_app. right. left.
Qed.

Lemma replace_from_cons old new c s :
  replace_from old new O (c :: s) =
  if startswith (c :: s) old
  then new ++ replace_from old new (pred (length old)) s
  else c :: replace_from old new O s.
Proof. done. Qed.

Lemma replace_from_app_sep old new k a x b :
  old ≠ [] → x ∉ tl old →
  replace_from old new k (a ++ x :: b) =
  replace_from old new k a ++ replace_from old new (k - length a) (x :: b).
Proof.
  intros Hold Hx. revert k. induction a as [|c a IH]; intros k.
  - simpl. by rewrite Nat.sub_0_r.
  - destruct k as [|k].
    + rewrite Nat.sub_0_l, <- app_comm_cons.
      rewrite (replace_from_cons _ _ c (a ++ x :: b)), (replace_from_cons _ _ c a).
      rewrite app_comm_cons.
      destruct (startswith ((c :: a) ++ x :: b) old) eqn:E.
      * apply startswith_app_sep in E as [E1 E2]; [|done..].
        rewrite E1, IH, <- app_assoc. do 3 f_equal. simpl in E2. lia.
      * assert (startswith (c :: a) old = false) as ->.
        { destruct (startswith (c :: a) old) eqn:E'; [|done].
          apply startswith_spec in E' as [t Ht].
          assert (startswith ((c :: a) ++ x :: b) old = true); [|congruence].
          apply startswith_spec. exists (t ++ x :: b).
          by rewrite Ht, <- app_assoc. }
        by rewrite IH, Nat.sub_0_l.
    + rewrite <- app_comm_cons. cbn [replace_from length]. by rewrite IH.
Qed.

Lemma replace_app_sep old new a x b :
  old ≠ [] → x ∉ tl old →
  replace old new (a ++ x :: b) = replace old new a ++ replace old new (x :: b).
Proof.
  intros Hold Hx. destruct old as [|y old]; [done|].
  unfold replace. by rewrite replace_from_app_sep.
Qed.

(** A character the pattern does not have splits the text into two parts
    that are rewritten on their own. *)
Lemma replace_app_cut old new a x b :
  old ≠ [] → x ∉ old →
  replace old new (a ++ x :: b) = replace old new a ++ x :: replace old new b.
Proof.
  intros Hold Hx. rewrite replace_app_sep; [|done|].
  - f_equal. apply replace_cons_other; [|done].
    destruct old as [|y old]; [done|]. simpl. intros [= ->]. apply Hx. left.
  - intros H. apply Hx. destruct old; [done|]. by right.
Qed.

Lemma replace_from_Forall (P : char → Prop) old new k s :
  Forall P new → Forall P s → Forall P (replace_from old new k s).
Proof.
  intros Hnew. revert k. induction s as [|c s IH]; intros k Hs; [done|].
  apply Forall_cons in Hs as [Hc Hs]. cbn [replace_from].
  destruct k; [|by apply IH].
  destruct (startswith (c :: s) old).
  - apply Forall_app. split; [done | by apply IH].
  - apply Forall_cons. split; [done | by apply IH].
Qed.

(** The result is made of characters of the text and of the replacement. *)
Lemma replace_Forall (P : char → Prop) old new s :
  old ≠ [] → Forall P new → Forall P s → Forall P (replace old new s).
Proof.
  intros Hold Hn Hs. destruct old; [done|]. by apply replace_from_Forall.
Qed.

End ReplaceFacts.

(** ** The four buckets of the classification loop *)

Inductive Bucket := Header | Package | Import | Body.

#[global] Instance Bucket_eq_dec : EqDecision Bucket.
Proof. solve_decision. Defined.

(** The branch [parse_line] takes, as a function of the flag and the line. *)
Definition bucket_of (found : bool) (line : str) : Bucket :=
  let stripped := strip line in
  if startswith stripped kw_package then Package
  else if startswith stripped kw_import then Import
  else if negb found && comment_or_blank stripped then Header
  else Body.

(** What each branch stores. *)
Definition put (b : Bucket) (line : str) (st : ParseState) : ParseState :=
  match b with
  | Package =>
      mkParse (Some line) (imports st) (other_lines st) (header_comments st) true
  | Import =>
      mkParse (package_line st) ({[ strip line ]} ∪ imports st) (other_lines st)
              (header_comments st) (package_found st)
  | Header =>
      mkParse (package_line st) (imports st) (other_lines st)
              (header_comments st ++ [line]) (package_found st)
  | Body =>
      mkParse (package_line st) (imports st) (other_lines st ++ [line])
              (header_comments st) (package_found st)
  end.

(** The lines of [lines] that go to bucket [b], in order, when the loop
    starts with the flag at [found]. *)
Fixpoint pick (b : Bucket) (found : bool) (lines : list str) : list str :=
  match lines with
  | [] => []
  | l :: ls =>
      let b' := bucket_of found l in
      (if decide (b' = b) then [l] else [])
      ++ pick b (found || bool_decide (b' = Package)) ls
  end.

Definition is_package (line : str) : bool := startswith (strip line) kw_package.
Definition is_import (line : str) : bool := startswith (strip line) kw_import.

Section Classification.
Implicit Types (st : ParseState) (line l : str) (lines ls : list str).

Lemma parse_line_put st line :
  parse_line st line = put (bucket_of (package_found st) line) line st.
Proof.
  unfold parse_line, bucket_of.
  destruct (startswith (strip line) kw_package); [done|].
  destruct (startswith (strip line) kw_import); [done|].
  by destruct (negb (package_found st) && comment_or_blank (strip line)).
Qed.

Lemma put_found b line st :
  package_found (put b line st) = package_found st || bool_decide (b = Package).
Proof. destruct b; simpl; by rewrite ?orb_true_r, ?orb_false_r. Qed.

(** The state after the loop, bucket by bucket. *)
Lemma foldl_parse_line st lines :
  let f := package_found st in
  let st' := foldl parse_line st lines in
  header_comments st' = header_comments st ++ pick Header f lines
  ∧ other_lines st' = other_lines st ++ pick Body f lines
  ∧ imports st' = list_to_set (strip <$> pick Import f lines) ∪ imports st
  ∧ package_line st' =
      from_option Some (package_line st) (last (pick Package f lines))
  ∧ package_found st' = f || bool_decide (pick Package f lines ≠ []).
Proof.
  revert st. induction lines as [|l ls IH]; intros st; cbn zeta.
  - simpl. rewrite !app_nil_r, orb_false_r. repeat split; try done.
    by rewrite union_empty_l_L.
  - cbn [foldl pick]. specialize (IH (parse_line st l)). cbn zeta in IH.
    destruct IH as (IH1 & IH2 & IH3 & IH4 & IH5).
    rewrite IH1, IH2, IH3, IH4, IH5. clear IH1 IH2 IH3 IH4 IH5.
    rewrite parse_line_put, put_found.
    destruct (bucket_of (package_found st) l) eqn:Hb; simpl;
      rewrite ?orb_false_r, ?orb_true_r, <- ?app_assoc; simpl.
    + repeat split; try done.
    + repeat split; try done.
      rewrite last_cons. by destruct (last (pick Package true ls)).
    + repeat split; try done.
      by rewrite (assoc_L (∪)), (comm_L (∪) {[strip l]}).
    + repeat split; try done.
Qed.

Lemma parse_buckets lines :
  header_comments (parse lines) = pick Header false lines
  ∧ other_lines (parse lines) = pick Body false lines
  ∧ imports (parse lines) = list_to_set (strip <$> pick Import false lines)
  ∧ package_line (parse lines) = last (pick Package false lines).
Proof.
  destruct (foldl_parse_line parse_init lines) as (H1 & H2 & H3 & H4 & _).
  unfold parse. simpl in *. rewrite H1, H2, H3, H4.
  repeat split; try done.
  - by rewrite union_empty_r_L.
  - by destruct (last (pick Package false lines)).
Qed.

End Classification.

(** ** The text a run writes *)

(** The argument of the successive [f.write] calls of step 4, in order. *)
Definition emitted (header : list str) (pkg : str) (sorted_imports : list str)
    (body : str) : str :=
  concat header ++ pkg ++ (if endswith pkg [LF] then [] else [LF]) ++ [LF]
  ++ concat ((λ imp, imp ++ [LF]) <$> sorted_imports) ++ [LF] ++ body.

(** Steps 1 to 3 on the decoded text of a file: the text step 4 writes, or
    [None] when the function returns at line 39. *)
Definition rewritten (text : str) : option str :=
  let st := parse (readlines text) in
  match package_line st with
  | None => None
  | Some [] => None
  | Some pkg =>
      let body := fix_content (concat (other_lines st)) in
      Some (emitted (header_comments st) pkg
                    (reconstruct_imports (imports st) body) body)
  end.

Section WriteBackFacts.
Variable linesep : str.
Implicit Types (w : World) (filepath s : str).

Lemma write_newlines_app s t :
  write_newlines linesep (s ++ t) =
  write_newlines linesep s ++ write_newlines linesep t.
Proof. apply flat_map_app. Qed.

(** After [open_w], or after earlier writes, a write appends. *)
Lemma f_write_insert filepath s old m out pr :
  f_write linesep filepath s (mkWorld (<[filepath := old]> m) out pr) =
  mkWorld (<[filepath := old ++ write_newlines linesep s]> m) out pr.
Proof. unfold f_write. simpl. by rewrite alter_insert_eq. Qed.

Lemma foldl_f_write_insert {A} (g : A → str) filepath (xs : list A) old m out pr :
  foldl (λ w x, f_write linesep filepath (g x) w)
        (mkWorld (<[filepath := old]> m) out pr) xs =
  mkWorld (<[filepath := old ++ write_newlines linesep (concat (g <$> xs))]> m)
          out pr.
Proof.
  revert old. induction xs as [|x xs IH]; intros old; simpl.
  - by rewrite app_nil_r.
  - rewrite f_write_insert, IH, write_newlines_app. by rewrite <- app_assoc.
Qed.

Lemma write_back_spec filepath header pkg sorted_imports body w :
  write_back linesep filepath header pkg sorted_imports body w =
  mkWorld (<[filepath :=
             write_newlines linesep (emitted header pkg sorted_imports body)]>
             (files w))
          (stdout w) (opened_w w ++ [filepath]).
Proof.
  unfold write_back, f_writelines, open_w, emitted.
  rewrite (foldl_f_write_insert id), list_fmap_id.
  rewrite f_write_insert.
  destruct (endswith pkg [LF]).
  - rewrite f_write_insert, (foldl_f_write_insert (λ imp, imp ++ [LF])).
    rewrite !f_write_insert. cbn [files stdout opened_w]. f_equal. f_equal.
    rewrite !write_newlines_app, <- !app_assoc. reflexivity.
  - rewrite !f_write_insert, (foldl_f_write_insert (λ imp, imp ++ [LF])).
    rewrite !f_write_insert. cbn [files stdout opened_w]. f_equal. f_equal.
    rewrite !write_newlines_app, <- !app_assoc. reflexivity.
Qed.

(** A run is: nothing, when the file is missing or has no package line;
    otherwise one truncating open, the text of [rewritten], one printed line. *)
Lemma fix_file_structure_spec filepath w :
  fix_file_structure linesep filepath w =
  match files w !! filepath with
  | None => w
  | Some raw =>
      match rewritten (universal_newlines raw) with
      | None => w
      | Some out =>
          mkWorld (<[filepath := write_newlines linesep out]> (files w))
                  (stdout w ++ [lit "Fixed " ++ filepath])
                  (opened_w w ++ [filepath])
      end
  end.
Proof.
  unfold fix_file_structure, rewritten.
  destruct (files w !! filepath) as [raw|]; [|done].
  destruct (package_line (parse (readlines (universal_newlines raw))))
    as [[|c pkg]|]; [done| |done].
  by rewrite write_back_spec.
Qed.

End WriteBackFacts.

(** ** The order of [sorted] and the import block *)

Section Sorting.
Implicit Types (a b c : str) (xs : list str).

Lemma str_leb_refl a : str_leb a a = true.
Proof. induction a as [|x a IH]; simpl; [done|]. by rewrite N.ltb_irrefl, N.eqb_refl. Qed.

#[global] Instance str_le_total : Total str_le.
Proof.
  intros a. unfold str_le. induction a as [|x a IH]; intros [|y b]; simpl; auto.
  destruct (N.ltb_spec x y), (N.ltb_spec y x); auto; try lia.
  assert (x = y) as -> by lia. rewrite N.eqb_refl. apply IH.
Qed.

#[global] Instance str_le_trans : Transitive str_le.
Proof.
  intros a. unfold str_le.
  induction a as [|x a IH]; intros [|y b] [|z c]; simpl; auto; try done.
  destruct (N.ltb_spec x y), (N.ltb_spec y z), (N.ltb_spec x z); auto; try lia.
  - destruct (N.eqb_spec y z); [lia | done].
  - destruct (N.eqb_spec x y); [lia | done].
  - destruct (N.eqb_spec x y), (N.eqb_spec y z), (N.eqb_spec x z);
      try done; try lia. apply IH.
Qed.

#[global] Instance str_le_antisymm : AntiSymm (=) str_le.
Proof.
  intros a. unfold str_le.
  induction a as [|x a IH]; intros [|y b]; simpl; auto; try done.
  destruct (N.ltb_spec x y), (N.ltb_spec y x),
    (N.eqb_spec x y), (N.eqb_spec y x); try done; try (intros; lia).
  intros H1 H2. subst. f_equal. by apply IH.
Qed.

Lemma sorted_perm xs : sorted xs ≡ₚ xs.
Proof. apply merge_sort_Permutation. Qed.

Lemma elem_of_sorted x xs : x ∈ sorted xs ↔ x ∈ xs.
Proof. by rewrite sorted_perm. Qed.

Lemma sorted_StronglySorted xs : StronglySorted str_le (sorted xs).
Proof. apply StronglySorted_merge_sort; apply _. Qed.

(** The result of [sorted] depends on the elements only, not on the order in
    which [list(imports)] happens to enumerate the set. *)
Lemma sorted_unique xs ys : xs ≡ₚ ys → sorted xs = sorted ys.
Proof.
  intros H. apply (StronglySorted_unique str_le); try apply sorted_StronglySorted.
  by rewrite !sorted_perm.
Qed.

Lemma sorted_id xs : StronglySorted str_le xs → sorted xs = xs.
Proof.
  intros H. apply (StronglySorted_unique str_le); [apply sorted_StronglySorted|done|].
  apply sorted_perm.
Qed.

End Sorting.

Section Imports.
Implicit Types (imps : gset str) (body x : str).

Lemma elem_of_reconstruct_imports imps body x :
  x ∈ reconstruct_imports imps body ↔
  (x ∈ imps ∧ x ≠ old_import)
  ∨ (x = new_import ∧ contains hilog_dot body = true).
Proof.
  unfold reconstruct_imports. rewrite elem_of_sorted, elem_of_elements.
  set (imps1 := if decide (old_import ∈ imps) then imps ∖ {[old_import]} else imps).
  assert (∀ y, y ∈ imps1 ↔ y ∈ imps ∧ y ≠ old_import) as H1.
  { intros y. unfold imps1. destruct (decide (old_import ∈ imps)) as [Hold|Hold].
    - by rewrite elem_of_difference, elem_of_singleton.
    - split; [|tauto]. intros Hy. split; [done|]. by intros ->. }
  destruct (contains hilog_dot body); simpl.
  - case_bool_decide as Hn; simpl.
    + rewrite elem_of_union, elem_of_singleton, H1. tauto.
    + rewrite H1. split; [tauto|].
      intros [?|[-> _]]; [done|]. by apply H1.
  - rewrite H1. split; [tauto|]. by intros [?|[_ ?]].
Qed.

Lemma reconstruct_imports_sorted imps body :
  StronglySorted str_le (reconstruct_imports imps body).
Proof. apply sorted_StronglySorted. Qed.

Lemma reconstruct_imports_NoDup imps body :
  NoDup (reconstruct_imports imps body).
Proof.
  unfold reconstruct_imports, sorted.
  rewrite merge_sort_Permutation. apply NoDup_elements.
Qed.

End Imports.

(** ** The parts of the written text *)

Definition header_of (text : str) : list str :=
  header_comments (parse (readlines text)).

Definition body_of (text : str) : str :=
  fix_content (concat (other_lines (parse (readlines text)))).

Definition imports_of (text : str) : list str :=
  reconstruct_imports (imports (parse (readlines text))) (body_of text).

(** Test inputs are written line by line; every line gets its line feed. *)
Definition text_of (ls : list string) : str :=
  concat ((λ s, lit s ++ [LF]) <$> ls).

Section Buckets.
Implicit Types (st : ParseState) (line l s : str) (lines ls : list str)
  (f : bool) (b : Bucket).

Lemma bucket_of_Package f l : bucket_of f l = Package ↔ is_package l = true.
Proof.
  unfold bucket_of, is_package.
  destruct (startswith (strip l) kw_package); [done|].
  destruct (startswith (strip l) kw_import); [done|].
  by destruct (negb f && comment_or_blank (strip l)).
Qed.

(** A comment or an empty string starts with neither keyword. *)
Lemma comment_or_blank_not_keyword s :
  comment_or_blank s = true →
  startswith s kw_package = false ∧ startswith s kw_import = false.
Proof.
  unfold comment_or_blank. destruct s as [|c s]; [done|].
  intros H. unfold kw_package, kw_import. cbn [startswith].
  destruct (N.eqb_spec 112 c) as [<-|]; [by vm_compute in H|].
  destruct (N.eqb_spec 105 c) as [<-|]; [by vm_compute in H|done].
Qed.

Lemma bucket_of_comment f l :
  comment_or_blank (strip l) = true →
  bucket_of f l = if f then Body else Header.
Proof.
  intros H. unfold bucket_of.
  destruct (comment_or_blank_not_keyword _ H) as [-> ->].
  rewrite H. by destruct f.
Qed.

Lemma bucket_of_found_not_Header l : bucket_of true l ≠ Header.
Proof.
  unfold bucket_of.
  destruct (startswith (strip l) kw_package); [done|].
  by destruct (startswith (strip l) kw_import).
Qed.

Lemma pick_Package f lines :
  pick Package f lines = filter (λ l, is_package l = true) lines.
Proof.
  revert f. induction lines as [|l ls IH]; intros f; [done|].
  cbn [pick]. rewrite IH, filter_cons.
  destruct (decide (bucket_of f l = Package)) as [H|H];
    destruct (decide (is_package l = true)) as [H'|H']; try done.
  - destruct H'. by apply (bucket_of_Package f).
  - destruct H. by apply bucket_of_Package.
Qed.

Lemma pick_Header_found lines : pick Header true lines = [].
Proof.
  induction lines as [|l ls IH]; [done|]. cbn [pick orb].
  rewrite IH. destruct (decide _) as [H|H]; [|done].
  by apply bucket_of_found_not_Header in H.
Qed.

Lemma pick_app b f ls1 ls2 :
  pick b f (ls1 ++ ls2) =
  pick b f ls1 ++ pick b (f || bool_decide (pick Package f ls1 ≠ [])) ls2.
Proof.
  revert f. induction ls1 as [|l ls IH]; intros f.
  - simpl. by rewrite orb_false_r.
  - cbn [app pick]. rewrite IH, <- !app_assoc. do 2 f_equal.
    destruct (decide (bucket_of f l = Package)) as [->|H]; simpl.
    + by rewrite !orb_true_r.
    + rewrite bool_decide_eq_false_2 by done. by rewrite orb_false_r.
Qed.

(** Every line is in exactly one bucket. *)
Lemma pick_Permutation f lines :
  lines ≡ₚ pick Header f lines ++ pick Package f lines
           ++ pick Import f lines ++ pick Body f lines.
Proof.
  revert f. induction lines as [|l ls IH]; intros f; [done|].
  cbn [pick]. destruct (bucket_of f l); simpl;
    match goal with |- context [pick Header ?g ls] => rewrite (IH g) at 1 end;
    set (A := pick Header _ ls); set (B := pick Package _ ls);
    set (C := pick Import _ ls); set (D := pick Body _ ls).
  - done.
  - apply Permutation_middle.
  - rewrite !(app_assoc A B). apply Permutation_middle.
  - rewrite !(app_assoc A B), !(app_assoc (A ++ B) C). apply Permutation_middle.
Qed.

Lemma package_line_nonempty lines pkg :
  package_line (parse lines) = Some pkg → is_package pkg = true ∧ pkg ≠ [].
Proof.
  destruct (parse_buckets lines) as (_ & _ & _ & ->).
  rewrite pick_Package. intros H%last_Some_elem_of.
  apply list_elem_of_filter in H as [H _]. split; [done|].
  by intros ->.
Qed.

Lemma rewritten_Some text pkg :
  package_line (parse (readlines text)) = Some pkg →
  rewritten text =
  Some (emitted (header_of text) pkg (imports_of text) (body_of text)).
Proof.
  intros H. unfold rewritten. rewrite H.
  apply package_line_nonempty in H as [_ H]. by destruct pkg.
Qed.

Lemma rewritten_None text :
  package_line (parse (readlines text)) = None → rewritten text = None.
Proof. intros H. unfold rewritten. by rewrite H. Qed.

End Buckets.

(** ** Sample worlds *)

(** One file of comments and blank lines, no package declaration. *)
Definition comments_only : World :=
  mkWorld {[ lit "Notes.kt" :=
             text_of ["// only a comment"; ""; "/* block */"; " * more" ] ]}
          [] [].

(** ** No package declaration, or no file: nothing happens *)

Lemma no_package_line lines :
  Forall (λ l, is_package l = false) lines → package_line (parse lines) = None.
Proof.
  intros H. destruct (parse_buckets lines) as (_ & _ & _ & ->).
  rewrite pick_Package. apply last_None.
  induction H as [|l ls Hl _ IH]; [done|].
  rewrite filter_cons. destruct (decide _) as [E|_]; [congruence | done].
Qed.

(** C7. A run on a file none of whose lines starts (stripped) with
    [package ], or on a path that is not there, leaves the world as it was:
    the file keeps its content, no file is opened for writing and nothing is
    printed. *)
Theorem no_package_or_no_file_is_noop linesep filepath w :
  files w !! filepath = None
  ∨ (∃ raw, files w !! filepath = Some raw
       ∧ Forall (λ l, is_package l = false)
                (readlines (universal_newlines raw))) →
  fix_file_structure linesep filepath w = w.
Proof.
  intros H. rewrite fix_file_structure_spec.
  destruct H as [-> | (raw & -> & H)]; [done|].
  by rewrite rewritten_None by by apply no_package_line.
Qed.

Lemma no_package_or_no_file_is_noop_witness :
  fix_file_structure [CR; LF] (lit "Notes.kt") comments_only = comments_only
  ∧ fix_file_structure [LF] (lit "Missing.kt") comments_only = comments_only.
Proof.
  split.
  - apply no_package_or_no_file_is_noop. right.
    exists (text_of ["// only a comment"; ""; "/* block */"; " * more" ]).
    split; [reflexivity|]. vm_compute. repeat constructor.
  - apply no_package_or_no_file_is_noop. left. reflexivity.
Defined.

(** ** A package declaration: the file is written *)

Lemma endswith_snoc (s : str) c : endswith (s ++ [c]) [c] = true.
Proof.
  unfold endswith. rewrite rev_unit. simpl. by rewrite N.eqb_refl.
Qed.

(** The run on a file with a package line, in full. *)
Lemma fix_file_structure_writes linesep filepath w raw pkg :
  files w !! filepath = Some raw →
  package_line (parse (readlines (universal_newlines raw))) = Some pkg →
  let text := universal_newlines raw in
  fix_file_structure linesep filepath w =
  mkWorld (<[filepath := write_newlines linesep
               (emitted (header_of text) pkg (imports_of text) (body_of text))]>
             (files w))
          (stdout w ++ [lit "Fixed " ++ filepath])
          (opened_w w ++ [filepath]).
Proof.
  intros Hf Hp text. rewrite fix_file_structure_spec, Hf.
  by rewrite (rewritten_Some _ pkg).
Qed.

(** A file whose only mention of the new API is in a comment. *)
Definition hilog_in_comment : World :=
  mkWorld {[ lit "Doc.kt" :=
             text_of ["package p"; "// logging goes through HiLog.d"] ]}
          [] [].

(** C10. Whenever a package line is found the file is opened for writing
    and overwritten with the rebuilt text, and one line is printed; nothing
    compares the new text with the old.  The new import is in the import
    block whenever [HiLog.] occurs anywhere in the rewritten body. *)
Theorem package_found_always_overwrites linesep filepath w raw pkg :
  files w !! filepath = Some raw →
  package_line (parse (readlines (universal_newlines raw))) = Some pkg →
  let text := universal_newlines raw in
  let w' := fix_file_structure linesep filepath w in
  files w' = <[filepath := write_newlines linesep
                 (emitted (header_of text) pkg (imports_of text) (body_of text))]>
               (files w)
  ∧ opened_w w' = opened_w w ++ [filepath]
  ∧ stdout w' = stdout w ++ [lit "Fixed " ++ filepath]
  ∧ (contains hilog_dot (body_of text) = true → new_import ∈ imports_of text).
Proof.
  intros Hf Hp text w'. unfold w'.
  rewrite (fix_file_structure_writes _ _ _ _ _ Hf Hp). simpl.
  repeat split. intros H. apply elem_of_reconstruct_imports. by right.
Qed.

Lemma package_found_always_overwrites_witness :
  let w' := fix_file_structure [LF] (lit "Doc.kt") hilog_in_comment in
  files w' !! lit "Doc.kt" =
    Some (text_of ["package p"; ""; "import com.coni.hyperisle.util.HiLog"; "";
                   "// logging goes through HiLog.d"])
  ∧ opened_w w' = [lit "Doc.kt"]
  ∧ stdout w' = [lit "Fixed Doc.kt"].
Proof.
  destruct (package_found_always_overwrites [LF] (lit "Doc.kt") hilog_in_comment
              (text_of ["package p"; "// logging goes through HiLog.d"])
              (lit "package p" ++ [LF]) eq_refl eq_refl) as (H1 & H2 & H3 & _).
  cbv zeta. rewrite H1, H2, H3, lookup_insert_eq.
  repeat split; vm_compute; reflexivity.
Defined.

(** A file that imports the old API and calls it at a level that is not
    among the known patterns. *)
Definition verbose_call : str :=
  text_of ["package p"; "import android.util.Log"; "fun f() { Log.v(TAG, 1) }"].

(** C9. The import block of a rewritten file never has
    [import android.util.Log], whatever the body still calls. *)
Theorem old_import_always_removed text pkg :
  package_line (parse (readlines text)) = Some pkg →
  rewritten text =
    Some (emitted (header_of text) pkg (imports_of text) (body_of text))
  ∧ old_import ∉ imports_of text.
Proof.
  intros H. split; [by apply rewritten_Some|].
  intros [[_ Hne]|[Hne _]]%elem_of_reconstruct_imports; done.
Qed.

Lemma old_import_always_removed_witness :
  old_import ∈ imports (parse (readlines verbose_call))
  ∧ body_of verbose_call = lit "fun f() { Log.v(TAG, 1) }" ++ [LF]
  ∧ imports_of verbose_call = []
  ∧ rewritten verbose_call =
      Some (text_of ["package p"; ""; ""; "fun f() { Log.v(TAG, 1) }"]).
Proof.
  destruct (old_import_always_removed verbose_call (lit "package p" ++ [LF])
              eq_refl) as [H _].
  rewrite H. split; [refine (bool_decide_unpack _ _); vm_compute; exact I|].
  repeat split; vm_compute; reflexivity.
Defined.

(** ** The classification, line by line and as a whole *)

(** C8. Each iteration stores the line in the one bucket its branch names;
    over the whole file the four buckets partition the lines, and the loop
    ends with exactly these buckets.  With the flag set a line is never a
    header line: a comment or blank line then goes to the body, and the flag
    never goes back. *)
Theorem classification_partitions_lines lines :
  (∀ st line,
     parse_line st line = put (bucket_of (package_found st) line) line st)
  ∧ lines ≡ₚ pick Header false lines ++ pick Package false lines
             ++ pick Import false lines ++ pick Body false lines
  ∧ header_comments (parse lines) = pick Header false lines
  ∧ other_lines (parse lines) = pick Body false lines
  ∧ imports (parse lines) = list_to_set (strip <$> pick Import false lines)
  ∧ package_line (parse lines) = last (pick Package false lines)
  ∧ (∀ st line,
       package_found st = true → comment_or_blank (strip line) = true →
       parse_line st line = put Body line st)
  ∧ (∀ st line,
       package_found st = true → package_found (parse_line st line) = true)
  ∧ (∀ before pkg after,
       lines = before ++ pkg :: after → is_package pkg = true →
       header_comments (parse lines) = pick Header false before
       ∧ other_lines (parse lines) =
           pick Body false before ++ pick Body true after).
Proof.
  destruct (parse_buckets lines) as (H1 & H2 & H3 & H4).
  split; [apply parse_line_put|]. split; [apply pick_Permutation|].
  repeat (split; [done|]). split; [|split].
  - intros st line Hf Hc. by rewrite parse_line_put, Hf, (bucket_of_comment true).
  - intros st line Hf. by rewrite parse_line_put, put_found, Hf.
  - intros before pkg after -> Hp. rewrite H1, H2, !pick_app. cbn [pick].
    apply (bucket_of_Package (false || bool_decide (pick Package false before ≠ [])))
      in Hp.
    rewrite Hp. simpl. rewrite !orb_true_r, pick_Header_found, app_nil_r. done.
Qed.

(** C2 as the code has it: [package_line = line] runs at every package line,
    so the last one is kept.  The written text has that line and no other
    line that starts with [package ] is stored in the header or the body. *)
Theorem last_package_line_wins text :
  let lines := readlines text in
  let packages := filter (λ l, is_package l = true) lines in
  package_line (parse lines) = last packages
  ∧ rewritten text =
      (λ pkg, emitted (header_of text) pkg (imports_of text) (body_of text))
        <$> last packages
  ∧ Forall (λ l, is_package l = false)
           (header_comments (parse lines) ++ other_lines (parse lines)).
Proof.
  intros lines packages.
  destruct (parse_buckets lines) as (H1 & H2 & _ & H4).
  rewrite pick_Package in H4. fold packages in H4. split; [done|]. split.
  - fold lines in H4. destruct (last packages) as [pkg|] eqn:E; simpl.
    + by apply rewritten_Some.
    + by apply rewritten_None.
  - rewrite H1, H2. apply Forall_app.
    assert (∀ b f ls, b ≠ Package →
              Forall (λ l, is_package l = false) (pick b f ls)) as Hpick.
    { intros b f ls Hb. revert f. induction ls as [|l ls IH]; intros f; [done|].
      cbn [pick]. apply Forall_app. split; [|apply IH].
      destruct (decide (bucket_of f l = b)) as [E|_]; [|done].
      constructor; [|done]. destruct (is_package l) eqn:Hl; [|done].
      apply (bucket_of_Package f) in Hl. congruence. }
    split; by apply Hpick.
Qed.

(** Two package lines. *)
Definition two_packages : str := text_of ["package a"; "package b"].

(** The first package line is not the one recorded and written: the second
    is, and the first is nowhere in the output. *)
Lemma first_package_line_loses :
  head (filter (λ l, is_package l = true) (readlines two_packages))
    = Some (lit "package a" ++ [LF])
  ∧ package_line (parse (readlines two_packages))
    = Some (lit "package b" ++ [LF])
  ∧ rewritten two_packages = Some (text_of ["package b"; ""; ""])
  ∧ (λ out, contains (lit "package a") out) <$> rewritten two_packages
    = Some false.
Proof. repeat split; vm_compute; reflexivity. Qed.

(** ** The order of the written text *)

(** Imports before the package line, code before it too, a comment after. *)
Definition interleaved : World :=
  mkWorld {[ lit "Mixed.kt" :=
             text_of ["// header"; "import b.B"; "class X"; "package p";
                      "import a.A"; "// after"; "val x = 1"] ]}
          [] [].

(** C5. Whatever the order of the lines read, the file is rewritten as: the
    header lines, the package line closed by a line feed, an empty line, the
    imports in increasing order and without repetition, each on its line, an
    empty line, the rewritten body. *)
Theorem output_in_fixed_order linesep filepath w raw pkg :
  files w !! filepath = Some raw →
  package_line (parse (readlines (universal_newlines raw))) = Some pkg →
  let text := universal_newlines raw in
  let lines := readlines text in
  let pkg_nl := if endswith pkg [LF] then pkg else pkg ++ [LF] in
  files (fix_file_structure linesep filepath w) !! filepath =
    Some (write_newlines linesep
            (concat (pick Header false lines) ++ pkg_nl ++ [LF]
             ++ concat ((λ imp, imp ++ [LF]) <$> imports_of text) ++ [LF]
             ++ fix_content (concat (pick Body false lines))))
  ∧ endswith pkg_nl [LF] = true
  ∧ last (pick Package false lines) = Some pkg
  ∧ StronglySorted str_le (imports_of text)
  ∧ NoDup (imports_of text)
  ∧ (∀ imp, imp ∈ imports_of text ↔
        (imp ∈ strip <$> pick Import false lines ∧ imp ≠ old_import)
        ∨ (imp = new_import
           ∧ contains hilog_dot (fix_content (concat (pick Body false lines)))
             = true)).
Proof.
  intros Hf Hp text lines pkg_nl.
  rewrite (fix_file_structure_writes _ _ _ _ _ Hf Hp). cbn [files].
  rewrite lookup_insert_eq.
  destruct (parse_buckets lines) as (H1 & H2 & H3 & H4).
  fold text. unfold emitted, header_of, imports_of, body_of. fold lines.
  rewrite H1, H2, H3. split; [|split; [|split; [|split; [|split]]]].
  - do 2 f_equal. unfold pkg_nl. destruct (endswith pkg [LF]).
    + by rewrite app_nil_l.
    + by rewrite <- !app_assoc.
  - unfold pkg_nl. destruct (endswith pkg [LF]) eqn:E; [done|].
    apply endswith_snoc.
  - by rewrite <- H4.
  - apply reconstruct_imports_sorted.
  - apply reconstruct_imports_NoDup.
  - intros imp. rewrite elem_of_reconstruct_imports, elem_of_list_to_set. done.
Qed.

Lemma output_in_fixed_order_witness :
  files (fix_file_structure [LF] (lit "Mixed.kt") interleaved) !! lit "Mixed.kt"
  = Some (text_of ["// header"; "package p"; ""; "import a.A"; "import b.B"; "";
                   "class X"; "// after"; "val x = 1"]).
Proof.
  destruct (output_in_fixed_order [LF] (lit "Mixed.kt") interleaved
              (text_of ["// header"; "import b.B"; "class X"; "package p";
                        "import a.A"; "// after"; "val x = 1"])
              (lit "package p" ++ [LF]) eq_refl eq_refl) as (H & _).
  rewrite H. vm_compute. reflexivity.
Defined.

(** ** Occurrences across a boundary *)

(** No occurrence of [old] in [a ++ b] begins in [a] and ends in [b]. *)
Definition no_straddle (old a b : str) : Prop :=
  ∀ u v, u ≠ [] → v ≠ [] → old = u ++ v →
         u `suffix_of` a → v `prefix_of` b → False.

(** The non-empty suffixes of a string. *)
Fixpoint suffixes (s : str) : list str :=
  match s with
  | [] => []
  | _ :: s' => s :: suffixes s'
  end.

(** A test on the first characters [w] of the right part: no proper suffix
    of [old] is a prefix of [w] or has [w] as a prefix. *)
Definition clear_l (old w : str) : bool :=
  forallb (λ v, negb (startswith w v) && negb (startswith v w))
          (suffixes (tl old)).

(** The same test on the last characters [w] of the left part. *)
Definition clear_r (old w : str) : bool := clear_l (rev old) (rev w).

Section Boundaries.
Implicit Types (s p t old new a b u v w : str) (c x : char).

Lemma elem_of_suffixes u v : v ≠ [] → v ∈ suffixes (u ++ v).
Proof.
  intros Hv. induction u as [|c u IH]; simpl.
  - destruct v; [done | left].
  - by right.
Qed.

Lemma no_straddle_tail old c a b :
  no_straddle old (c :: a) b → no_straddle old a b.
Proof.
  intros H u v Hu Hv Ho Hs Hp. apply (H u v); try done.
  by apply suffix_cons_r.
Qed.

Lemma no_straddle_rev old a b :
  no_straddle (rev old) (rev b) (rev a) → no_straddle old a b.
Proof.
  intros H u v Hu Hv -> [k ->] [k' ->]. apply (H (rev v) (rev u)).
  - intros E. apply Hv. by rewrite <- (rev_involutive v), E.
  - intros E. apply Hu. by rewrite <- (rev_involutive u), E.
  - by rewrite rev_app_distr.
  - exists (rev k'). by rewrite rev_app_distr.
  - exists (rev k). by rewrite rev_app_distr.
Qed.

Lemma startswith_app_ns old a b :
  no_straddle old a b → a ≠ [] → startswith (a ++ b) old = true →
  startswith a old = true ∧ (length old ≤ length a)%nat.
Proof.
  intros Hf Ha [t Ht]%startswith_spec.
  apply app_eq_inv in Ht as [(k & -> & _) | (k & -> & Hk)].
  - split; [apply startswith_app | rewrite length_app; lia].
  - destruct k as [|y k].
    + rewrite app_nil_r. split; [|lia].
      apply startswith_spec. exists []. by rewrite app_nil_r.
    + exfalso. apply (Hf a (y :: k)); try done. by exists t.
Qed.

Lemma replace_from_app_ns old new k a b :
  old ≠ [] → no_straddle old a b →
  replace_from old new k (a ++ b) =
  replace_from old new k a ++ replace_from old new (k - length a) b.
Proof.
  intros Hold. revert k. induction a as [|c a IH]; intros k Hx.
  - simpl. by rewrite Nat.sub_0_r.
  - pose proof (no_straddle_tail _ _ _ _ Hx) as Hx'. destruct k as [|k].
    + rewrite Nat.sub_0_l, <- app_comm_cons.
      rewrite (replace_from_cons _ _ c (a ++ b)), (replace_from_cons _ _ c a).
      rewrite app_comm_cons.
      destruct (startswith ((c :: a) ++ b) old) eqn:E.
      * apply startswith_app_ns in E as [E1 E2]; [|done..].
        rewrite E1, IH, <- app_assoc by done. do 3 f_equal. simpl in E2. lia.
      * assert (startswith (c :: a) old = false) as ->.
        { destruct (startswith (c :: a) old) eqn:E'; [|done].
          apply startswith_spec in E' as [t Ht].
          assert (startswith ((c :: a) ++ b) old = true); [|congruence].
          apply startswith_spec. exists (t ++ b).
          by rewrite Ht, <- app_assoc. }
        by rewrite IH, Nat.sub_0_l.
    + rewrite <- app_comm_cons. cbn [replace_from length]. by rewrite IH.
Qed.

(** Where no occurrence reaches across the boundary, the two parts are
    rewritten on their own. *)
Lemma replace_app_ns old new a b :
  old ≠ [] → no_straddle old a b →
  replace old new (a ++ b) = replace old new a ++ replace old new b.
Proof.
  intros Hold Hx. destruct old as [|y old]; [done|].
  unfold replace. by rewrite replace_from_app_ns.
Qed.

Lemma startswith_app_inv w b v :
  startswith (w ++ b) v = true →
  startswith w v = true ∨ startswith v w = true.
Proof.
  intros [t Ht]%startswith_spec.
  apply app_eq_inv in Ht as [(k & -> & _) | (k & -> & _)].
  - left. apply startswith_app.
  - right. apply startswith_app.
Qed.

Lemma clear_l_no_straddle old w a b :
  clear_l old w = true → no_straddle old a (w ++ b).
Proof.
  intros H u v Hu Hv -> _ [k Hk]. unfold clear_l in H.
  rewrite forallb_forall in H. specialize (H v).
  assert (startswith (w ++ b) v = true) as Hs.
  { rewrite Hk. apply startswith_app. }
  apply startswith_app_inv in Hs.
  destruct u as [|c u]; [done|]. simpl in H.
  assert (In v (suffixes (u ++ v))) as Hin.
  { apply list_elem_of_In. by apply elem_of_suffixes. }
  apply H, andb_true_iff in Hin as [H1 H2].
  destruct Hs as [Hs|Hs]; rewrite Hs in *; done.
Qed.

Lemma clear_r_no_straddle old w a b :
  clear_r old w = true → no_straddle old (a ++ w) b.
Proof.
  intros H. apply no_straddle_rev. rewrite rev_app_distr.
  by apply clear_l_no_straddle.
Qed.

End Boundaries.

(** ** The body rewrite, pattern by pattern *)

(** The replacements of lines 90 to 101 for a list of pairs. *)
Definition apply_patterns (pats : list (str * str)) (body : str) : str :=
  foldl (fun b pr => replace (fst pr) (snd pr) b) body pats.

(** The thirteen texts [fix_content] searches for. *)
Definition searched : list str := hihilog :: (fst <$> known_patterns).

(** [chunk] goes through [replace old _] untouched wherever it stands: no
    occurrence of [old] lies in it or reaches into it from either side. *)
Definition kept_by (chunk old : str) : Prop :=
  old ≠ []
  ∧ (∀ a b, no_straddle old a (chunk ++ b))
  ∧ (∀ a b, no_straddle old (a ++ chunk) b)
  ∧ contains old chunk = false.

(** A sufficient test on a known text. *)
Definition keeps (old chunk : str) : bool :=
  negb (bool_decide (old = [])) && clear_l old chunk && clear_r old chunk
  && negb (contains old chunk).

Section Rewrite.
Implicit Types (s p r t old new a b u v w m chunk pre post body : str)
  (c x : char) (pats : list (str * str)).

Lemma fix_content_unfold body :
  fix_content body = apply_patterns known_patterns (replace hihilog hilog body).
Proof. done. Qed.

Lemma apply_patterns_app pats1 pats2 body :
  apply_patterns (pats1 ++ pats2) body =
  apply_patterns pats2 (apply_patterns pats1 body).
Proof. apply foldl_app. Qed.

Lemma apply_patterns_cons p r pats body :
  apply_patterns ((p, r) :: pats) body = apply_patterns pats (replace p r body).
Proof. done. Qed.

Lemma known_patterns_nonempty : Forall (λ pr, fst pr ≠ []) known_patterns.
Proof. unfold known_patterns. repeat constructor; discriminate. Qed.

Lemma replace_kept old new a chunk b :
  kept_by chunk old →
  replace old new (a ++ chunk ++ b) =
  replace old new a ++ chunk ++ replace old new b.
Proof.
  intros (Hold & Hl & Hr & Hc).
  rewrite replace_app_ns by done. f_equal.
  rewrite (replace_app_ns _ _ chunk b); [|done|apply (Hr [])].
  by rewrite replace_absent.
Qed.

Lemma apply_patterns_kept pats a chunk b :
  Forall (λ pr, kept_by chunk (fst pr)) pats →
  apply_patterns pats (a ++ chunk ++ b) =
  apply_patterns pats a ++ chunk ++ apply_patterns pats b.
Proof.
  intros H. revert a b. induction H as [|[p r] pats Hp _ IH]; intros a b; [done|].
  rewrite !apply_patterns_cons, replace_kept by done. apply IH.
Qed.

Lemma keeps_kept_by old chunk : keeps old chunk = true → kept_by chunk old.
Proof.
  unfold keeps. rewrite !andb_true_iff, !negb_true_iff.
  intros [[[H1 H2] H3] H4]. repeat split; try done.
  - by apply bool_decide_eq_false in H1.
  - intros a b. by apply clear_l_no_straddle.
  - intros a b. by apply clear_r_no_straddle.
Qed.

Lemma windows_kept_by old wl m wr :
  old ≠ [] → clear_l old wl = true → clear_r old wr = true →
  contains old (wl ++ m ++ wr) = false → kept_by (wl ++ m ++ wr) old.
Proof.
  intros H1 H2 H3 H4. repeat split; try done.
  - intros a b. rewrite <- app_assoc. by apply clear_l_no_straddle.
  - intros a b. rewrite !app_assoc. by apply clear_r_no_straddle.
Qed.

(** Without any of the searched texts the body is left as it is. *)
Lemma apply_patterns_absent pats body :
  Forall (λ pr, contains (fst pr) body = false) pats →
  apply_patterns pats body = body.
Proof.
  induction 1 as [|[p r] pats Hp _ IH]; [done|].
  by rewrite apply_patterns_cons, replace_absent.
Qed.

End Rewrite.

(** ** The doubled prefix in front of a call *)

Definition log_name : str := Eval cbv in lit "Log".
Definition log_dot : str := Eval cbv in lit "Log.".
Definition hihi : str := Eval cbv in lit "HiHi".

Section Collapse.
Implicit Types (s p r t old new a b u v w m chunk pre post body : str)
  (c x : char).

(** Line 47 never removes the name [Log] a text ends with. *)
Lemma collapse_Log_suffix a :
  ∃ a', replace hihilog hilog (a ++ log_name) = a' ++ log_name.
Proof.
  remember (length a) as n eqn:Hn. revert a Hn.
  induction n as [n IH] using lt_wf_ind. intros a Hn.
  destruct a as [|c a0]; [by exists []|].
  destruct (startswith ((c :: a0) ++ log_name) hihilog) eqn:E.
  - rewrite replace_hit by done. apply startswith_spec in E as [t Ht].
    rewrite Ht, drop_app_length.
    apply app_eq_inv in Ht as [(k & Ha & ->) | (k & Hh & Hl)].
    + destruct (IH (length k)) with (a := k) as [k' Hk']; [|done|].
      { rewrite Hn, Ha, length_app. simpl. lia. }
      exists (hilog ++ k'). by rewrite Hk', app_assoc.
    + destruct k as [|k1 [|k2 [|k3 [|k4 k]]]]; simpl in Hl.
      * subst t. by exists hilog.
      * injection Hl as <- <-.
        change hihilog with ([72; 105; 72; 105; 76; 111] ++ [103]) in Hh.
        by apply app_inj_2 in Hh as [_ Hh].
      * injection Hl as <- <- <-.
        change hihilog with ([72; 105; 72; 105; 76] ++ [111; 103]) in Hh.
        by apply app_inj_2 in Hh as [_ Hh].
      * injection Hl as <- <- <- <-. by exists [72; 105].
      * discriminate.
  - rewrite <- app_comm_cons, replace_miss by done.
    destruct (IH (length a0)) with (a := a0) as [a' Ha']; [|done|].
    { rewrite Hn. simpl. lia. }
    exists (c :: a'). by rewrite Ha'.
Qed.

(** An occurrence of the doubled prefix reaches into a text that starts
    with [Log] only from [HiHi]. *)
Lemma hihilog_no_straddle a b :
  ¬ hihi `suffix_of` a → no_straddle hihilog a (log_name ++ b).
Proof.
  intros Ha u v Hu Hv Hh Hs [k Hk].
  assert (startswith (log_name ++ b) v = true) as Hv'.
  { rewrite Hk. apply startswith_app. }
  do 7 (destruct u as [|? u];
        [first [done | simpl in Hh; subst v;
                       first [by vm_compute in Hv' | by apply Ha]]
        |injection Hh as <- Hh]).
  symmetry in Hh. by apply app_eq_nil in Hh as [_ ->].
Qed.


Lemma collapse_kept a chunk b :
  startswith chunk log_dot = true →
  (∀ a b, no_straddle hihilog (a ++ chunk) b) →
  contains hihilog chunk = false →
  ∃ a', replace hihilog hilog (a ++ chunk ++ b) =
        a' ++ chunk ++ replace hihilog hilog b
        ∧ (¬ hihi `suffix_of` a → a' = replace hihilog hilog a).
Proof.
  intros [t ->]%startswith_spec Hr Hc.
  destruct (collapse_Log_suffix a) as [a' Ha']. exists a'.
  assert (replace hihilog hilog (a ++ log_dot ++ t) = a' ++ log_dot ++ t) as E.
  { assert (∀ u, u ++ log_dot ++ t = (u ++ log_name) ++ 46 :: t) as Hu.
    { intros u. by rewrite <- app_assoc. }
    rewrite !Hu, replace_app_cut, Ha'; [|done|].
    - rewrite (replace_absent _ _ t); [done|].
      by apply contains_false_app_r in Hc.
    - refine (bool_decide_unpack _ _). vm_compute. exact I. }
  split.
  - by rewrite app_assoc, replace_app_ns, E, <- app_assoc.
  - intros Ha. rewrite <- (app_nil_r log_name) in Ha' at 1.
    rewrite replace_app_ns in Ha'; [|done|by apply hihilog_no_straddle].
    rewrite app_nil_r in Ha'. by apply app_inv_tail in Ha'.
Qed.

End Collapse.

(** ** What the body rewrite changes and what it keeps *)

Section RewriteFacts.
Implicit Types (s p r t old new a b u v w m chunk pre post body : str)
  (c x : char) (pats : list (str * str)) (k : nat).

Lemma forallb_keeps pats chunk :
  forallb (λ pr, keeps (fst pr) chunk) pats = true →
  Forall (λ pr, kept_by chunk (fst pr)) pats.
Proof.
  rewrite forallb_forall, Forall_forall. intros H pr Hpr.
  by apply keeps_kept_by, H, list_elem_of_In.
Qed.

(** One pair of the list rewrites its occurrence and the others pass it by. *)
Lemma apply_patterns_one pats k p r a b :
  pats !! k = Some (p, r) →
  forallb (λ pr, keeps (fst pr) p) (take k pats) = true →
  p ≠ [] → clear_l p p = true →
  forallb (λ pr, keeps (fst pr) r) (drop (S k) pats) = true →
  apply_patterns pats (a ++ p ++ b) =
  apply_patterns pats a ++ r ++ apply_patterns pats b.
Proof.
  intros Hk HB Hp Hpp HA. pose proof (take_drop_middle _ _ _ Hk) as E.
  revert HB HA E. generalize (take k pats) (drop (S k) pats).
  intros B A HB%forallb_keeps HA%forallb_keeps <-.
  rewrite !apply_patterns_app, !apply_patterns_cons.
  rewrite (apply_patterns_kept B) by done.
  rewrite replace_app_ns; [|done|by apply clear_l_no_straddle].
  rewrite (replace_hit p r (p ++ _)); [|done|apply startswith_app].
  rewrite drop_app_length. by rewrite (apply_patterns_kept A).
Qed.

Lemma known_patterns_checks k p r :
  known_patterns !! k = Some (p, r) →
  forallb (λ pr, keeps (fst pr) p) (take k known_patterns) = true
  ∧ p ≠ [] ∧ clear_l p p = true
  ∧ forallb (λ pr, keeps (fst pr) r) (drop (S k) known_patterns) = true
  ∧ startswith p log_dot = true ∧ clear_r hihilog p = true
  ∧ contains hihilog p = false ∧ contains hilog_dot r = true.
Proof.
  do 12 (destruct k as [|k];
         [intros [= <- <-]; repeat split; try discriminate;
          vm_compute; reflexivity|]).
  done.
Qed.

Lemma known_patterns_windows :
  Forall (λ pr, fst pr ≠ [] ∧ clear_l (fst pr) log_dot = true
                ∧ clear_r (fst pr) [41] = true) known_patterns.
Proof.
  unfold known_patterns.
  repeat constructor; try discriminate; vm_compute; reflexivity.
Qed.

(** A recognized call opening is rewritten wherever it stands in the body,
    and the text after it is rewritten as if it stood alone. *)
Lemma known_pattern_rewritten p r pre post :
  (p, r) ∈ known_patterns →
  ∃ pre', fix_content (pre ++ p ++ post) = pre' ++ r ++ fix_content post
          ∧ (¬ hihi `suffix_of` pre → pre' = fix_content pre).
Proof.
  intros [k Hk]%list_elem_of_lookup.
  destruct (known_patterns_checks _ _ _ Hk)
    as (HB & Hp & Hpp & HA & Hs & Hr & Hc & _).
  destruct (collapse_kept pre p post) as (a' & E & Ea); [done| |done|].
  { intros a b. by apply clear_r_no_straddle. }
  exists (apply_patterns known_patterns a'). split.
  - rewrite !fix_content_unfold, E. by apply (apply_patterns_one _ k).
  - intros H. by rewrite Ea.
Qed.

(** A call that starts with [Log.], ends with a closing parenthesis and
    has none of the searched texts in it is kept wherever it stands. *)
Lemma unlisted_call_kept_gen pre m post :
  Forall (λ p, contains p (log_dot ++ m ++ [41]) = false) searched →
  ∃ pre', fix_content (pre ++ (log_dot ++ m ++ [41]) ++ post) =
          pre' ++ (log_dot ++ m ++ [41]) ++ fix_content post
          ∧ (¬ hihi `suffix_of` pre → pre' = fix_content pre).
Proof.
  intros [Hh Hk]%Forall_cons. rewrite Forall_fmap in Hk.
  destruct (collapse_kept pre (log_dot ++ m ++ [41]) post)
    as (a' & E & Ea); [apply startswith_app| |done|].
  { intros a b. rewrite !app_assoc. by apply clear_r_no_straddle. }
  exists (apply_patterns known_patterns a'). split.
  - rewrite !fix_content_unfold, E. apply apply_patterns_kept.
    pose proof known_patterns_windows as Hw.
    rewrite Forall_forall in Hw, Hk. apply Forall_forall. intros pr Hpr.
    destruct (Hw pr Hpr) as (H1 & H2 & H3).
    apply windows_kept_by; try done. by apply Hk.
  - intros H. by rewrite Ea.
Qed.

(** A body with none of the searched texts is left as it is. *)
Lemma fix_content_absent body :
  Forall (λ p, contains p body = false) searched → fix_content body = body.
Proof.
  intros [Hh Hk]%Forall_cons. rewrite Forall_fmap in Hk.
  by rewrite fix_content_unfold, replace_absent, apply_patterns_absent.
Qed.

(** A recognized call opening anywhere in the body brings [HiLog.] into the
    rewritten body. *)
Lemma fix_content_hilog p body :
  p ∈ fst <$> known_patterns → contains p body = true →
  contains hilog_dot (fix_content body) = true.
Proof.
  intros ([p' r] & -> & Hpr)%list_elem_of_fmap. simpl.
  intros (pre & post & ->)%contains_spec.
  destruct (known_pattern_rewritten _ _ pre post Hpr) as (pre' & -> & _).
  apply list_elem_of_lookup in Hpr as [k Hk].
  destruct (known_patterns_checks _ _ _ Hk) as (_ & _ & _ & _ & _ & _ & _ & Hr).
  by apply contains_app_r, contains_app_l.
Qed.

End RewriteFacts.

(** ** The whitelist, in any context *)

(** X1.  A call text that starts with [Log.], ends with a closing
    parenthesis and has none of the thirteen searched texts in it comes out
    of the body rewrite unchanged wherever it stands, and the text after it
    is rewritten as if it stood alone; so is the text before it unless it
    ends with [HiHi]. *)
Theorem unlisted_call_is_kept pre m post :
  let call := log_dot ++ m ++ lit ")" in
  Forall (λ p, contains p call = false) searched →
  ∃ pre', fix_content (pre ++ call ++ post) = pre' ++ call ++ fix_content post
          ∧ (¬ hihi `suffix_of` pre → pre' = fix_content pre).
Proof.
  cbn zeta. change (lit ")") with [41]. intros H.
  by apply unlisted_call_kept_gen.
Qed.

Lemma unlisted_call_is_kept_witness :
  ∃ pre', fix_content (lit "if (x) " ++ (log_dot ++ lit "v(TAG, msg" ++ lit ")")
                       ++ lit "; Log.d(TAG, msg)") =
          pre' ++ (log_dot ++ lit "v(TAG, msg" ++ lit ")")
          ++ fix_content (lit "; Log.d(TAG, msg)")
          ∧ (¬ hihi `suffix_of` lit "if (x) " → pre' = fix_content (lit "if (x) ")).
Proof.
  apply (unlisted_call_is_kept (lit "if (x) ") (lit "v(TAG, msg")
                               (lit "; Log.d(TAG, msg)")).
  repeat constructor; vm_compute; reflexivity.
Defined.

(** X2.  Each of the twelve recognized call openings is replaced by its
    counterpart wherever it stands in the body, whatever surrounds it; the
    text after it is rewritten as if it stood alone, and so is the text
    before it unless it ends with [HiHi]. *)
Theorem known_call_is_rewritten p r pre post :
  (p, r) ∈ known_patterns →
  ∃ pre', fix_content (pre ++ p ++ post) = pre' ++ r ++ fix_content post
          ∧ (¬ hihi `suffix_of` pre → pre' = fix_content pre).
Proof.
  intros H. destruct (known_pattern_rewritten p r pre post H) as (pre' & E & E').
  exists pre'. by split.
Qed.

Lemma known_call_is_rewritten_witness :
  ∃ pre', fix_content (lit "x = 1; " ++ (lit "Log.w(" ++ [DQ] ++ lit "HyperIsle"
                                          ++ [DQ] ++ lit ",")
                       ++ lit " msg)") =
          pre' ++ lit "HiLog.w(HiLog.TAG_ISLAND," ++ fix_content (lit " msg)")
          ∧ (¬ hihi `suffix_of` lit "x = 1; " → pre' = fix_content (lit "x = 1; ")).
Proof.
  apply (known_call_is_rewritten
           (lit "Log.w(" ++ [DQ] ++ lit "HyperIsle" ++ [DQ] ++ lit ",")
           (lit "HiLog.w(HiLog.TAG_ISLAND,") (lit "x = 1; ") (lit " msg)")).
  apply (list_elem_of_lookup_2 _ 8). vm_compute. reflexivity.
Defined.

(** X3.  A body in which none of the thirteen searched texts occurs is
    returned as it is. *)
Theorem body_without_searched_text_unchanged body :
  Forall (λ p, contains p body = false) searched → fix_content body = body.
Proof.
  intros H. pose proof (fix_content_absent body H) as E. by rewrite E.
Qed.

Lemma body_without_searched_text_unchanged_witness :
  fix_content (text_of ["val x = 1"; "Log.v(TAG, x)"; "HiLog.d(y)"]) =
  text_of ["val x = 1"; "Log.v(TAG, x)"; "HiLog.d(y)"].
Proof.
  apply (body_without_searched_text_unchanged
           (text_of ["val x = 1"; "Log.v(TAG, x)"; "HiLog.d(y)"])).
  repeat constructor; vm_compute; reflexivity.
Defined.

(** X4.  When one of the twelve recognized call openings occurs in the text
    of the body lines, the rewritten body refers to [HiLog.] and the import
    block has the new logging import and not the old one. *)
Theorem recognized_call_brings_new_import text p :
  p ∈ fst <$> known_patterns →
  contains p (concat (other_lines (parse (readlines text)))) = true →
  contains hilog_dot (body_of text) = true
  ∧ new_import ∈ imports_of text ∧ old_import ∉ imports_of text.
Proof.
  intros Hp Hc. pose proof (fix_content_hilog _ _ Hp Hc) as Hb.
  split; [done|]. unfold imports_of. split.
  - apply elem_of_reconstruct_imports. by right.
  - intros [[_ H]|[H _]]%elem_of_reconstruct_imports; [done | discriminate].
Qed.

Definition one_known_call : str :=
  text_of ["import android.util.Log"; "package p"; "fun f() {";
           "  Log.e(TAG, msg)"; "}"].

Lemma recognized_call_brings_new_import_witness :
  contains hilog_dot (body_of one_known_call) = true
  ∧ new_import ∈ imports_of one_known_call
  ∧ old_import ∉ imports_of one_known_call.
Proof.
  apply (recognized_call_brings_new_import one_known_call (lit "Log.e(TAG,")).
  - apply (list_elem_of_lookup_2 _ 3). vm_compute. reflexivity.
  - vm_compute. reflexivity.
Defined.

(** ** Lines *)

(** A line with its line feed, and no other. *)
Definition complete (l : str) : Prop := ∃ l0, l = l0 ++ [LF] ∧ LF ∉ l0.

(** What [readlines] returns: complete lines, except that the last one may
    lack its line feed. *)
Fixpoint well_cut (ls : list str) : Prop :=
  match ls with
  | [] => True
  | l :: ls' =>
      match ls' with
      | [] => complete l ∨ (l ≠ [] ∧ LF ∉ l)
      | _ :: _ => complete l ∧ well_cut ls'
      end
  end.

Section Lines.
Implicit Types (s l t : str) (ls : list str) (c x : char).

Lemma readlines_cons_LF s : readlines (LF :: s) = [LF] :: readlines s.
Proof. done. Qed.

Lemma readlines_cons_other c s :
  c ≠ LF →
  readlines (c :: s) =
  match readlines s with [] => [[c]] | l :: ls => (c :: l) :: ls end.
Proof. intros H. cbn [readlines]. by destruct (N.eqb_spec c LF). Qed.

Lemma readlines_complete l0 rest :
  LF ∉ l0 → readlines (l0 ++ LF :: rest) = (l0 ++ [LF]) :: readlines rest.
Proof.
  induction l0 as [|c l0 IH]; intros H; [done|].
  apply not_elem_of_cons in H as [Hc H].
  rewrite <- !app_comm_cons, readlines_cons_other by done. by rewrite IH.
Qed.

Lemma readlines_open l : l ≠ [] → LF ∉ l → readlines l = [l].
Proof.
  induction l as [|c l IH]; intros Hl H; [done|].
  apply not_elem_of_cons in H as [Hc H].
  rewrite readlines_cons_other by done.
  destruct l as [|d l]; [done|]. by rewrite IH.
Qed.

(** Joining the lines gives the text back. *)
Lemma concat_readlines s : concat (readlines s) = s.
Proof.
  induction s as [|c s IH]; [done|].
  destruct (N.eqb_spec c LF) as [->|Hc].
  - rewrite readlines_cons_LF. simpl. by rewrite IH.
  - rewrite readlines_cons_other by done.
    destruct (readlines s) as [|l ls]; simpl in *; by rewrite <- IH.
Qed.

Lemma readlines_nil_inv s : readlines s = [] → s = [].
Proof. intros H. by rewrite <- (concat_readlines s), H. Qed.

Lemma well_cut_cons l ls :
  well_cut (l :: ls) ↔
  (ls = [] ∧ (complete l ∨ (l ≠ [] ∧ LF ∉ l))) ∨ (ls ≠ [] ∧ complete l ∧ well_cut ls).
Proof.
  destruct ls as [|l' ls]; simpl; split.
  - intros H. by left.
  - by intros [[_ H] | [H _]].
  - intros H. by right.
  - by intros [[H _] | [_ H]].
Qed.

Lemma well_cut_tail l ls : well_cut (l :: ls) → well_cut ls.
Proof. destruct ls; simpl; [done | tauto]. Qed.

Lemma readlines_well_cut s : well_cut (readlines s).
Proof.
  induction s as [|c s IH]; [done|].
  destruct (N.eqb_spec c LF) as [->|Hc].
  - rewrite readlines_cons_LF. apply well_cut_cons.
    assert (complete [LF]) as Hl.
    { exists []. split; [done | apply not_elem_of_nil]. }
    destruct (readlines s) as [|l ls]; [left | right].
    + split; [done | by left].
    + by repeat split.
  - rewrite readlines_cons_other by done.
    destruct (readlines s) as [|l ls].
    + right. split; [done|]. by apply not_elem_of_cons, conj, not_elem_of_nil.
    + apply well_cut_cons in IH. apply well_cut_cons.
      assert (complete l → complete (c :: l)) as Hcl.
      { intros (l0 & -> & H0). exists (c :: l0). split; [done|].
        by apply not_elem_of_cons. }
      destruct IH as [[-> [H|[H1 H2]]] | (H1 & H2 & H3)].
      * left. split; [done|]. left. by apply Hcl.
      * left. split; [done|]. right. split; [done|]. by apply not_elem_of_cons.
      * right. split; [done|]. split; [by apply Hcl | done].
Qed.

(** Cutting the joined lines gives the lines back. *)
Lemma readlines_concat ls : well_cut ls → readlines (concat ls) = ls.
Proof.
  induction ls as [|l ls IH]; [done|].
  intros [[-> H] | (Hls & (l0 & -> & H0) & H)]%well_cut_cons.
  - simpl. rewrite app_nil_r. destruct H as [(l0 & -> & H0) | [H1 H2]].
    + by rewrite readlines_complete.
    + by apply readlines_open.
  - simpl. rewrite <- app_assoc. simpl. by rewrite readlines_complete, IH.
Qed.

Lemma well_cut_app ls1 ls2 :
  Forall complete ls1 → well_cut ls2 → well_cut (ls1 ++ ls2).
Proof.
  induction 1 as [|l ls1 Hl _ IH]; intros H2; [done|].
  specialize (IH H2). simpl. apply well_cut_cons.
  destruct (ls1 ++ ls2) eqn:E; [left | right]; try done.
  split; [done | by left].
Qed.

Lemma well_cut_elem ls l :
  well_cut ls → l ∈ ls → complete l ∨ (l ≠ [] ∧ LF ∉ l).
Proof.
  induction ls as [|l' ls IH]; [by intros _ ?%elem_of_nil|].
  intros H [->|Hl]%elem_of_cons.
  - apply well_cut_cons in H as [[_ H] | (_ & H & _)]; [done | by left].
  - apply IH; [by apply well_cut_tail in H | done].
Qed.

(** Only the last line can lack its line feed. *)
Lemma well_cut_init ls1 l ls2 :
  well_cut (ls1 ++ l :: ls2) → Forall complete ls1.
Proof.
  induction ls1 as [|l1 ls1 IH]; [done|]. simpl.
  intros [[E _] | (_ & H1 & H2)]%well_cut_cons.
  - by destruct ls1.
  - constructor; [done | by apply IH].
Qed.

Lemma pick_sublist b f ls : pick b f ls `sublist_of` ls.
Proof.
  revert f. induction ls as [|l ls IH]; intros f; [done|].
  cbn [pick]. destruct (decide _); simpl.
  - by apply sublist_skip.
  - by apply sublist_cons.
Qed.

Lemma well_cut_sublist ls1 ls2 :
  ls1 `sublist_of` ls2 → well_cut ls2 → well_cut ls1.
Proof.
  induction 1 as [|x l1 l2 Hs IH|x l1 l2 Hs IH]; [done| |].
  - intros H. apply well_cut_cons.
    apply well_cut_cons in H as [[-> H] | (Hl & Hx & H)].
    + apply sublist_nil_r in Hs as ->. by left.
    + destruct l1 as [|y l1]; [left | right]; try done.
      * split; [done | by left].
      * split; [done|]. split; [done | by apply IH].
  - intros H%well_cut_tail. by apply IH.
Qed.

End Lines.

(** ** [strip] *)

(** Made of white space only. *)
Definition blank (ws : str) : Prop := Forall (λ c, is_space c = true) ws.

(** Neither the first nor the last character is white space. *)
Definition trimmed (s : str) : Prop :=
  match s with
  | [] => True
  | x :: _ => is_space x = false ∧ ∃ y, last s = Some y ∧ is_space y = false
  end.

Section Strip.
Implicit Types (s l t ws : str) (c x y : char).

Lemma lstrip_blank ws s : blank ws → lstrip (ws ++ s) = lstrip s.
Proof. induction 1 as [|c ws Hc _ IH]; [done|]. simpl. by rewrite Hc. Qed.

Lemma lstrip_spec l :
  ∃ ws, l = ws ++ lstrip l ∧ blank ws
        ∧ match lstrip l with [] => True | x :: _ => is_space x = false end.
Proof.
  induction l as [|c l (ws & E & Hws & H)].
  { exists []. repeat split. constructor. }
  simpl. destruct (is_space c) eqn:Hc.
  - exists (c :: ws). split; [by rewrite E at 1|]. split; [by constructor | done].
  - exists []. repeat split; [constructor | done].
Qed.

Lemma rstrip_blank ws : blank ws → rstrip ws = [].
Proof. induction 1 as [|c ws Hc _ IH]; [done|]. simpl. by rewrite IH, Hc. Qed.

Lemma rstrip_app_blank s ws : blank ws → rstrip (s ++ ws) = rstrip s.
Proof.
  intros H. induction s as [|c s IH]; simpl.
  - by apply rstrip_blank.
  - by rewrite IH.
Qed.

Lemma rstrip_trimmed s y : last s = Some y → is_space y = false → rstrip s = s.
Proof.
  induction s as [|c s IH]; [done|]. intros Hl Hy. simpl.
  destruct s as [|d s].
  - injection Hl as ->. by rewrite Hy.
  - rewrite last_cons_cons in Hl. by rewrite IH.
Qed.

Lemma rstrip_spec s :
  ∃ ws, s = rstrip s ++ ws ∧ blank ws
        ∧ (rstrip s = [] ∨ ∃ y, last (rstrip s) = Some y ∧ is_space y = false).
Proof.
  induction s as [|c s (ws & E & Hws & H)].
  { exists []. repeat split; [constructor | by left]. }
  simpl. destruct (rstrip s) as [|d r] eqn:Hr.
  - simpl in E. subst s. destruct (is_space c) eqn:Hc.
    + exists (c :: ws). split; [done|]. split; [by constructor | by left].
    + exists ws. split; [done|]. split; [done|]. right. by exists c.
  - exists ws. split; [by rewrite E at 1|]. split; [done|]. right.
    destruct H as [H | (y & Hy & Hy')]; [done|]. exists y.
    by rewrite last_cons_cons.
Qed.

(** A line is its stripped text between two runs of white space. *)
Lemma strip_decompose l :
  ∃ ws1 ws2, l = ws1 ++ strip l ++ ws2 ∧ blank ws1 ∧ blank ws2
             ∧ trimmed (strip l).
Proof.
  destruct (lstrip_spec l) as (ws1 & E1 & H1 & Hx).
  destruct (rstrip_spec (lstrip l)) as (ws2 & E2 & H2 & Hy).
  exists ws1, ws2. unfold strip. split; [by rewrite <- E2 |].
  split; [done|]. split; [done|].
  destruct (rstrip (lstrip l)) as [|x r] eqn:Hr; [done|]. simpl.
  rewrite E2 in Hx. simpl in Hx. split; [done|].
  by destruct Hy as [Hy|Hy].
Qed.

Lemma strip_sandwich ws1 s ws2 :
  blank ws1 → blank ws2 → trimmed s → strip (ws1 ++ s ++ ws2) = s.
Proof.
  intros H1 H2 Hs. unfold strip. rewrite lstrip_blank by done.
  destruct s as [|x s].
  - simpl. destruct (lstrip_spec ws2) as (ws & E & _ & _).
    apply rstrip_blank. rewrite E in H2. by apply Forall_app in H2 as [_ H2].
  - destruct Hs as (Hx & y & Hy & Hy'). simpl. rewrite Hx.
    rewrite app_comm_cons, rstrip_app_blank by done.
    by apply (rstrip_trimmed _ y).
Qed.

Lemma strip_snoc_space l c : is_space c = true → strip (l ++ [c]) = strip l.
Proof.
  intros Hc. destruct (strip_decompose l) as (ws1 & ws2 & E & H1 & H2 & Ht).
  rewrite E at 1. rewrite <- !app_assoc. apply strip_sandwich; try done.
  apply Forall_app. split; [done | by constructor].
Qed.

Lemma strip_idemp l : strip (strip l) = strip l.
Proof.
  destruct (strip_decompose l) as (_ & _ & _ & _ & _ & Ht).
  rewrite <- (app_nil_r (strip l)) at 1.
  apply (strip_sandwich [] _ []); [constructor | constructor | done].
Qed.

Lemma strip_subseteq l x : x ∈ strip l → x ∈ l.
Proof.
  destruct (strip_decompose l) as (ws1 & ws2 & E & _). intros Hx.
  rewrite E. apply elem_of_app. right. apply elem_of_app. by left.
Qed.

(** The stripped text of a line has no line feed. *)
Lemma strip_no_LF l : complete l ∨ LF ∉ l → LF ∉ strip l.
Proof.
  intros [(l0 & -> & H0) | H] Hx.
  - rewrite strip_snoc_space in Hx by done. by apply strip_subseteq in Hx.
  - by apply strip_subseteq in Hx.
Qed.

End Strip.

(** ** The body rewrite, line by line *)

(** A character none of the searched texts has. *)
Definition is_cut (x : char) : Prop := Forall (λ p, x ∉ p) searched.

Section RewriteLines.
Implicit Types (s l t ws old new a b kw body : str) (c x y h : char)
  (pats : list (str * str)) (ls : list str) (P : char → Prop).

Lemma space_is_cut x : is_space x = true → is_cut x.
Proof.
  intros Hx. apply Forall_forall. intros p Hp Hin.
  assert (forallb (λ p, forallb (λ c, negb (is_space c)) p) searched = true) as H.
  { vm_compute. reflexivity. }
  rewrite forallb_forall in H. apply list_elem_of_In, H in Hp.
  rewrite forallb_forall in Hp. apply list_elem_of_In, Hp in Hin.
  by rewrite Hx in Hin.
Qed.

Lemma apply_patterns_cut pats x a b :
  Forall (λ pr, fst pr ≠ [] ∧ x ∉ fst pr) pats →
  apply_patterns pats (a ++ x :: b) =
  apply_patterns pats a ++ x :: apply_patterns pats b.
Proof.
  intros H. revert a b. induction H as [|[p r] pats [H1 H2] _ IH]; intros a b; [done|].
  by rewrite !apply_patterns_cons, replace_app_cut, IH.
Qed.

(** A character that no searched text has splits the body into two parts
    that are rewritten on their own. *)
Lemma fix_content_cut x a b :
  is_cut x → fix_content (a ++ x :: b) = fix_content a ++ x :: fix_content b.
Proof.
  intros [Hh Hk]%Forall_cons. rewrite Forall_fmap in Hk.
  rewrite !fix_content_unfold, replace_app_cut by done.
  apply apply_patterns_cut.
  pose proof known_patterns_nonempty as Hn.
  rewrite Forall_forall in Hn, Hk. apply Forall_forall. intros pr Hpr.
  split; [by apply Hn | by apply Hk].
Qed.

Lemma fix_content_nil : fix_content [] = [].
Proof. done. Qed.

Lemma fix_content_cons_cut x b :
  is_cut x → fix_content (x :: b) = x :: fix_content b.
Proof. intros H. apply (fix_content_cut x [] b H). Qed.

Lemma fix_content_snoc_cut a x :
  is_cut x → fix_content (a ++ [x]) = fix_content a ++ [x].
Proof. intros H. apply (fix_content_cut x a [] H). Qed.

Lemma fix_content_blank ws : blank ws → fix_content ws = ws.
Proof.
  induction 1 as [|c ws Hc _ IH]; [done|].
  rewrite fix_content_cons_cut by by apply space_is_cut. by rewrite IH.
Qed.

(** White space around a text stays where it is. *)
Lemma fix_content_sandwich ws1 s ws2 :
  blank ws1 → blank ws2 →
  fix_content (ws1 ++ s ++ ws2) = ws1 ++ fix_content s ++ ws2.
Proof.
  intros H1 H2. induction H1 as [|c ws1 Hc _ IH].
  - simpl. destruct H2 as [|d ws2 Hd H2]; [by rewrite !app_nil_r|].
    rewrite fix_content_cut by by apply space_is_cut.
    by rewrite (fix_content_blank ws2).
  - simpl. rewrite fix_content_cons_cut by by apply space_is_cut.
    by rewrite IH.
Qed.

(** The rewrite works on each line of the body by itself. *)
Lemma fix_content_concat ls :
  well_cut ls → fix_content (concat ls) = concat (fix_content <$> ls).
Proof.
  induction ls as [|l ls IH]; [done|].
  intros [[-> H] | (Hls & (l0 & -> & H0) & H)]%well_cut_cons.
  - simpl. by rewrite !app_nil_r.
  - simpl. rewrite <- app_assoc. simpl.
    rewrite fix_content_cut by by apply space_is_cut.
    rewrite fix_content_snoc_cut by by apply space_is_cut.
    by rewrite <- app_assoc, IH.
Qed.

(** The characters of the result are those of the text and those of the
    replacement texts, none of which is white space. *)
Lemma fix_content_Forall P body :
  (∀ c, is_space c = false → P c) → Forall P body → Forall P (fix_content body).
Proof.
  intros HP Hb. rewrite fix_content_unfold.
  assert (∀ new, forallb (λ c, negb (is_space c)) new = true → Forall P new) as Hn.
  { intros new H. rewrite forallb_forall in H. apply Forall_forall.
    intros c Hc%list_elem_of_In%H. apply HP. by destruct (is_space c). }
  assert (Forall P (replace hihilog hilog body)) as H0.
  { apply replace_Forall; [done| |done]. apply Hn. vm_compute. reflexivity. }
  revert H0. generalize (replace hihilog hilog body).
  assert (Forall (λ pr, fst pr ≠ []
            ∧ forallb (λ c, negb (is_space c)) (snd pr) = true) known_patterns) as H.
  { unfold known_patterns. repeat constructor; try discriminate;
      vm_compute; reflexivity. }
  induction H as [|[p r] pats [H1 H2] _ IH]; intros s Hs; [done|].
  rewrite apply_patterns_cons. apply IH, replace_Forall; [done | by apply Hn | done].
Qed.

Lemma fix_content_no_LF body : LF ∉ body → LF ∉ fix_content body.
Proof.
  intros H Hin.
  assert (Forall (λ c, c ≠ LF) (fix_content body)) as HF.
  { apply fix_content_Forall; [by intros c Hc -> |].
    apply Forall_forall. by intros c Hc ->. }
  rewrite Forall_forall in HF. by apply (HF LF).
Qed.

End RewriteLines.

(** ** The first and the last character through the rewrite *)

Definition trimmedb (s : str) : bool :=
  match s with
  | [] => true
  | x :: _ =>
      negb (is_space x)
      && match last s with Some y => negb (is_space y) | None => false end
  end.

Section Ends.
Implicit Types (s l t ws old new a b kw body : str) (c x y h : char)
  (pats : list (str * str)) (ls : list str) (P : char → Prop).

Lemma trimmedb_trimmed s : trimmedb s = true → trimmed s.
Proof.
  destruct s as [|x s]; [done|]. unfold trimmedb, trimmed.
  intros [Hx Hy]%andb_true_iff. split; [by destruct (is_space x)|].
  destruct (last (x :: s)) as [y|]; [|done]. exists y.
  split; [done | by destruct (is_space y)].
Qed.

Lemma trimmed_spec s :
  trimmed s ↔
  s = [] ∨ ((∃ x, head s = Some x ∧ is_space x = false)
            ∧ (∃ y, last s = Some y ∧ is_space y = false)).
Proof.
  destruct s as [|x s]; simpl.
  - split; [by left | done].
  - split.
    + intros [Hx Hy]. right. split; [by exists x | done].
    + intros [?|[(x' & [= <-] & Hx) Hy]]; [done|]. by split.
Qed.

Lemma replace_nonempty old new s :
  old ≠ [] → new ≠ [] → s ≠ [] → replace old new s ≠ [].
Proof.
  intros Ho Hn Hs. destruct s as [|c s]; [done|].
  destruct (startswith (c :: s) old) eqn:E.
  - rewrite replace_hit by done. by destruct new.
  - by rewrite replace_miss.
Qed.

Lemma replace_head P old new s :
  old ≠ [] → (∃ h, head new = Some h ∧ P h) → (∃ x, head s = Some x ∧ P x) →
  ∃ x, head (replace old new s) = Some x ∧ P x.
Proof.
  intros Ho (h & Hh & Ph) (x & Hx & Px). destruct s as [|c s]; [done|].
  destruct (startswith (c :: s) old) eqn:E.
  - rewrite replace_hit by done. exists h. split; [|done].
    by destruct new.
  - rewrite replace_miss by done. by exists x.
Qed.

Lemma replace_last P old new s :
  old ≠ [] → (∃ y, last new = Some y ∧ P y) → (∃ y, last s = Some y ∧ P y) →
  ∃ y, last (replace old new s) = Some y ∧ P y.
Proof.
  intros Ho (h & Hh & Ph). remember (length s) as n eqn:Hn. revert s Hn.
  induction n as [n IH] using lt_wf_ind. intros s Hn (y & Hy & Py).
  destruct s as [|c s]; [done|].
  destruct (startswith (c :: s) old) eqn:E.
  - rewrite replace_hit by done. rewrite last_app.
    destruct (drop (length old) (c :: s)) as [|d t] eqn:Ed.
    + rewrite replace_nil. destruct old; [done|]. simpl. by exists h.
    + destruct (IH (length (d :: t))) with (s := d :: t) as (z & Hz & Pz);
        [| done | | by (exists z; rewrite Hz)].
      * rewrite Hn, <- Ed, length_drop. destruct old; [done|]. simpl. lia.
      * exists y. split; [|done].
        rewrite <- (take_drop (length old) (c :: s)), Ed, last_app in Hy.
        destruct (last (d :: t)) eqn:El; [done | by apply last_None in El].
  - rewrite replace_miss by done. rewrite last_cons.
    destruct s as [|d s].
    + injection Hy as ->. rewrite replace_nil. destruct old; [done|]. by exists y.
    + rewrite last_cons_cons in Hy.
      destruct (IH (length (d :: s))) with (s := d :: s) as (z & Hz & Pz);
        [by (rewrite Hn; simpl; lia) | done | by exists y |].
      exists z. by rewrite Hz.
Qed.

Lemma replace_trimmed old new s :
  old ≠ [] → new ≠ [] → trimmed new → trimmed s → trimmed (replace old new s).
Proof.
  intros Ho Hn [?|[Hh Hl]]%trimmed_spec [->|[Hx Hy]]%trimmed_spec; try done.
  - rewrite replace_nil. by destruct old.
  - apply trimmed_spec. right. split.
    + by apply (replace_head (λ c, is_space c = false)).
    + by apply (replace_last (λ c, is_space c = false)).
Qed.

Lemma fix_content_trimmed s : trimmed s → trimmed (fix_content s).
Proof.
  intros Hs. rewrite fix_content_unfold.
  assert (trimmed (replace hihilog hilog s)) as H0.
  { apply replace_trimmed; try done. by apply trimmedb_trimmed. }
  revert H0. generalize (replace hihilog hilog s).
  assert (Forall (λ pr, fst pr ≠ [] ∧ snd pr ≠ [] ∧ trimmedb (snd pr) = true)
                 known_patterns) as H.
  { unfold known_patterns. repeat constructor; try discriminate;
      vm_compute; reflexivity. }
  induction H as [|[p r] pats (H1 & H2 & H3) _ IH]; intros t Ht; [done|].
  rewrite apply_patterns_cons. apply IH, replace_trimmed; try done.
  by apply trimmedb_trimmed.
Qed.

(** Stripping a line and rewriting it can be done in either order. *)
Lemma strip_fix_content l : strip (fix_content l) = fix_content (strip l).
Proof.
  destruct (strip_decompose l) as (ws1 & ws2 & E & H1 & H2 & Ht).
  rewrite E at 1. rewrite fix_content_sandwich by done.
  apply strip_sandwich; try done. by apply fix_content_trimmed.
Qed.

(** A replacement text never starts a keyword: what the result starts with,
    the text started with. *)
Lemma replace_startswith_inv old new s kw h :
  old ≠ [] → head new = Some h → h ∉ kw →
  startswith (replace old new s) kw = true → startswith s kw = true.
Proof.
  intros Ho Hh. revert s. induction kw as [|x kw IH]; intros s Hk; [done|].
  apply not_elem_of_cons in Hk as [Hx Hk].
  destruct s as [|c s]. { rewrite replace_nil. by destruct old. }
  destruct (startswith (c :: s) old) eqn:E.
  - rewrite replace_hit by done. destruct new as [|h' new]; [done|].
    injection Hh as ->. simpl.
    destruct (N.eqb_spec x h) as [->|]; [done | done].
  - rewrite replace_miss by done. simpl.
    intros [H1 H2]%andb_true_iff. rewrite H1. by apply IH.
Qed.

Lemma fix_content_startswith_inv s kw :
  72 ∉ kw → startswith (fix_content s) kw = true → startswith s kw = true.
Proof.
  intros Hk. rewrite fix_content_unfold. intros H.
  apply (replace_startswith_inv hihilog hilog _ _ 72); try done.
  revert H. generalize (replace hihilog hilog s).
  assert (Forall (λ pr, fst pr ≠ [] ∧ head (snd pr) = Some 72) known_patterns) as H.
  { unfold known_patterns. repeat constructor; discriminate. }
  induction H as [|[p r] pats [H1 H2] _ IH]; intros t Ht; [done|].
  rewrite apply_patterns_cons in Ht.
  by apply IH, (replace_startswith_inv p r _ _ 72) in Ht.
Qed.

Lemma bucket_of_true_Body l :
  bucket_of true l = Body ↔ is_package l = false ∧ is_import l = false.
Proof.
  unfold bucket_of, is_package, is_import. cbn [negb andb].
  destruct (startswith (strip l) kw_package); [by split; [|intros []]|].
  destruct (startswith (strip l) kw_import); [by split; [|intros []]|done].
Qed.

(** A body line is still a body line after the rewrite. *)
Lemma bucket_Body_fix_content l :
  bucket_of true l = Body → bucket_of true (fix_content l) = Body.
Proof.
  rewrite !bucket_of_true_Body. unfold is_package, is_import.
  rewrite !strip_fix_content. intros [H1 H2]. split.
  - destruct (startswith (fix_content (strip l)) kw_package) eqn:E; [|done].
    apply fix_content_startswith_inv in E; [congruence|].
    refine (bool_decide_unpack _ _). vm_compute. exact I.
  - destruct (startswith (fix_content (strip l)) kw_import) eqn:E; [|done].
    apply fix_content_startswith_inv in E; [congruence|].
    refine (bool_decide_unpack _ _). vm_compute. exact I.
Qed.

End Ends.

(** ** Reading back what a run wrote *)

(** The package line as step 4 writes it: with a line feed at its end. *)
Definition terminated (pkg : str) : str :=
  pkg ++ (if endswith pkg [LF] then [] else [LF]).

(** The lines of the text a run writes. *)
Definition emitted_lines (header : list str) (pkg : str)
    (sorted_imports : list str) (body_lines : list str) : list str :=
  header ++ terminated pkg :: [LF] ::
  ((λ imp, imp ++ [LF]) <$> sorted_imports) ++ [LF] :: body_lines.

Section SecondRun.
Implicit Types (s l t pkg text : str) (ls lines : list str) (c x y : char)
  (f : bool) (b : Bucket).

Lemma pick_elem b f ls l :
  l ∈ pick b f ls → l ∈ ls ∧ ∃ f', bucket_of f' l = b.
Proof.
  revert f. induction ls as [|l' ls IH]; intros f; [by intros ?%elem_of_nil|].
  cbn [pick]. intros [H|H]%elem_of_app.
  - destruct (decide _) as [E|E]; [|by apply elem_of_nil in H].
    apply list_elem_of_singleton in H as ->. split; [left | by exists f].
  - apply IH in H as [H1 H2]. split; [by right | done].
Qed.

Lemma pick_uniform b b0 f ls :
  b0 ≠ Package → Forall (λ l, bucket_of f l = b0) ls →
  pick b f ls = if decide (b0 = b) then ls else [].
Proof.
  intros Hb. induction 1 as [|l ls Hl _ IH]; [by destruct (decide _)|].
  cbn [pick]. rewrite Hl, bool_decide_eq_false_2, orb_false_r, IH by done.
  by destruct (decide _).
Qed.

Lemma pick_app_uniform b b0 f ls1 ls2 :
  b0 ≠ Package → Forall (λ l, bucket_of f l = b0) ls1 →
  pick b f (ls1 ++ ls2) = (if decide (b0 = b) then ls1 else []) ++ pick b f ls2.
Proof.
  intros Hb. induction 1 as [|l ls Hl _ IH]; [by destruct (decide _)|].
  cbn [app pick]. rewrite Hl, bool_decide_eq_false_2, orb_false_r, IH by done.
  by destruct (decide _).
Qed.

Lemma pick_cons b f l ls :
  pick b f (l :: ls) =
  (if decide (bucket_of f l = b) then [l] else [])
  ++ pick b (f || bool_decide (bucket_of f l = Package)) ls.
Proof. done. Qed.

Lemma bucket_of_strip_eq f l1 l2 :
  strip l1 = strip l2 → bucket_of f l1 = bucket_of f l2.
Proof. intros E. unfold bucket_of. by rewrite E. Qed.

Lemma bucket_of_Header_inv f l : bucket_of f l = Header → bucket_of false l = Header.
Proof. destruct f; [by intros ?%bucket_of_found_not_Header | done]. Qed.

Lemma bucket_of_Import_any f f' l : bucket_of f l = Import → bucket_of f' l = Import.
Proof.
  unfold bucket_of. destruct (startswith (strip l) kw_package); [done|].
  destruct (startswith (strip l) kw_import); [done|].
  by destruct (negb f && comment_or_blank (strip l)).
Qed.

Lemma bucket_of_Body_found f l : bucket_of f l = Body → bucket_of true l = Body.
Proof.
  unfold bucket_of. destruct (startswith (strip l) kw_package); [done|].
  destruct (startswith (strip l) kw_import); [done|].
  by destruct (negb f && comment_or_blank (strip l)).
Qed.

Lemma endswith_no_LF l : LF ∉ l → endswith l [LF] = false.
Proof.
  intros H. unfold endswith. simpl. destruct (rev l) as [|y r] eqn:E; [done|].
  destruct (N.eqb_spec LF y) as [<-|]; [|done].
  exfalso. apply H, list_elem_of_In, in_rev. rewrite E. by left.
Qed.

Lemma terminated_complete l :
  complete l ∨ (l ≠ [] ∧ LF ∉ l) → complete (terminated l).
Proof.
  unfold terminated. intros [(l0 & -> & H0) | [H1 H2]].
  - rewrite endswith_snoc, app_nil_r. by exists l0.
  - rewrite endswith_no_LF by done. by exists l.
Qed.

Lemma terminated_ends l : endswith (terminated l) [LF] = true.
Proof.
  unfold terminated. destruct (endswith l [LF]) eqn:E.
  - by rewrite app_nil_r.
  - apply endswith_snoc.
Qed.

Lemma terminated_idemp l : terminated (terminated l) = terminated l.
Proof. unfold terminated at 1. by rewrite terminated_ends, app_nil_r. Qed.

Lemma strip_terminated l : strip (terminated l) = strip l.
Proof.
  unfold terminated. destruct (endswith l [LF]); [by rewrite app_nil_r|].
  by apply strip_snoc_space.
Qed.

(** The header lines come before the package line: each has its line feed. *)
Lemma header_complete f lines :
  well_cut lines → pick Package f lines ≠ [] →
  Forall complete (pick Header f lines).
Proof.
  revert f. induction lines as [|l ls IH]; intros f Hw Hp; [done|].
  rewrite pick_cons in Hp |- *.
  destruct (decide (bucket_of f l = Package)) as [E|E].
  - rewrite E, bool_decide_eq_true_2, orb_true_r, pick_Header_found by done.
    by destruct (decide _).
  - rewrite bool_decide_eq_false_2, orb_false_r in Hp |- * by done.
    simpl in Hp. assert (ls ≠ []) as Hls by (by intros ->).
    apply well_cut_cons in Hw as [[-> _] | (_ & Hl & Hw)]; [done|].
    apply Forall_app. split; [|by apply IH].
    destruct (decide _); by constructor.
Qed.

Lemma complete_fix_content l : complete l → complete (fix_content l).
Proof.
  intros (l0 & -> & H0). exists (fix_content l0).
  rewrite fix_content_snoc_cut by by apply space_is_cut.
  split; [done | by apply fix_content_no_LF].
Qed.

Lemma fix_content_nonempty s : s ≠ [] → fix_content s ≠ [].
Proof.
  intros Hs. rewrite fix_content_unfold.
  assert (replace hihilog hilog s ≠ []) as H0 by by apply replace_nonempty.
  revert H0. generalize (replace hihilog hilog s).
  assert (Forall (λ pr, fst pr ≠ [] ∧ snd pr ≠ []) known_patterns) as H.
  { unfold known_patterns. repeat constructor; discriminate. }
  induction H as [|[p r] pats [H1 H2] _ IH]; intros t Ht; [done|].
  rewrite apply_patterns_cons. by apply IH, replace_nonempty.
Qed.

Lemma well_cut_fix_content ls : well_cut ls → well_cut (fix_content <$> ls).
Proof.
  induction ls as [|l ls IH]; [done|].
  intros [[-> H] | (Hls & Hl & H)]%well_cut_cons; apply well_cut_cons.
  - left. split; [done|]. destruct H as [H | [H1 H2]].
    + left. by apply complete_fix_content.
    + right. split; [by apply fix_content_nonempty | by apply fix_content_no_LF].
  - right. split; [by destruct ls|].
    split; [by apply complete_fix_content | by apply IH].
Qed.

End SecondRun.

Section SecondRunParse.
Implicit Types (s l t pkg text i : str) (ls lines : list str) (c x y : char)
  (f : bool) (b : Bucket).

Lemma emitted_concat header pkg sorted_imports body_lines :
  emitted header pkg sorted_imports (concat body_lines) =
  concat (emitted_lines header pkg sorted_imports body_lines).
Proof.
  unfold emitted, emitted_lines, terminated.
  rewrite concat_app. simpl. rewrite concat_app. simpl.
  by rewrite <- !app_assoc.
Qed.

Lemma body_of_lines text :
  body_of text = concat (fix_content <$> pick Body false (readlines text)).
Proof.
  unfold body_of. destruct (parse_buckets (readlines text)) as (_ & -> & _).
  apply fix_content_concat, (well_cut_sublist _ (readlines text)).
  - apply pick_sublist.
  - apply readlines_well_cut.
Qed.

Lemma bucket_of_Import_spec f l :
  bucket_of f l = Import → is_package l = false ∧ is_import l = true.
Proof.
  unfold bucket_of, is_package, is_import.
  destruct (startswith (strip l) kw_package); [done|].
  destruct (startswith (strip l) kw_import); [done|].
  by destruct (negb f && comment_or_blank (strip l)).
Qed.

(** An entry of the import block is a stripped import line. *)
Lemma imports_of_facts text i :
  i ∈ imports_of text →
  strip i = i ∧ is_import i = true ∧ is_package i = false ∧ LF ∉ i.
Proof.
  unfold imports_of. intros [[Hi _] | [-> _]]%elem_of_reconstruct_imports.
  - destruct (parse_buckets (readlines text)) as (_ & _ & E & _).
    rewrite E in Hi. apply elem_of_list_to_set, list_elem_of_fmap in Hi.
    destruct Hi as (l & -> & [Hl [f' Hb]]%pick_elem).
    apply bucket_of_Import_spec in Hb as [H1 H2].
    unfold is_package, is_import. rewrite !strip_idemp.
    repeat split; try done. apply strip_no_LF.
    destruct (well_cut_elem _ _ (readlines_well_cut text) Hl) as [H|[_ H]];
      [by left | by right].
  - repeat split; try (vm_compute; reflexivity).
    refine (bool_decide_unpack _ _). vm_compute. exact I.
Qed.

Lemma import_line_bucket text i :
  i ∈ imports_of text →
  bucket_of true (i ++ [LF]) = Import ∧ strip (i ++ [LF]) = i
  ∧ complete (i ++ [LF]).
Proof.
  intros (H1 & H2 & H3 & H4)%imports_of_facts.
  assert (strip (i ++ [LF]) = i) as E by by rewrite strip_snoc_space.
  split; [|split; [done | by exists i]].
  unfold bucket_of. rewrite E. unfold is_package, is_import in *.
  rewrite H1 in *. by rewrite H3, H2.
Qed.

Variables (text pkg : str).
Hypothesis Hpkg : package_line (parse (readlines text)) = Some pkg.

Let lines := readlines text.
Let body_lines := fix_content <$> pick Body false lines.
Let L2 := emitted_lines (header_of text) pkg (imports_of text) body_lines.

Lemma pkg_facts :
  pkg ∈ lines ∧ is_package pkg = true ∧ pick Package false lines ≠ [].
Proof using Hpkg.
  destruct (parse_buckets lines) as (_ & _ & _ & E). unfold lines in *.
  rewrite Hpkg in E. symmetry in E.
  split; [|split].
  - apply last_Some_elem_of in E. by apply pick_elem in E as [E _].
  - by apply package_line_nonempty in Hpkg as [H _].
  - intros H. by rewrite H in E.
Qed.

Lemma second_run_buckets :
  Forall (λ l, bucket_of false l = Header ∧ complete l) (header_of text)
  ∧ (bucket_of false (terminated pkg) = Package ∧ complete (terminated pkg))
  ∧ Forall (λ l, bucket_of true l = Import ∧ complete l)
           ((λ imp, imp ++ [LF]) <$> imports_of text)
  ∧ Forall (λ l, bucket_of true l = Body) body_lines
  ∧ well_cut body_lines.
Proof using Hpkg.
  destruct pkg_facts as (Hin & Hp & Hne).
  assert (well_cut lines) as Hw by apply readlines_well_cut.
  unfold header_of. destruct (parse_buckets lines) as (EH & _).
  fold lines. rewrite EH. repeat split.
  - apply Forall_forall. intros l Hl. split.
    + apply pick_elem in Hl as [_ [f' Hl]]. by apply bucket_of_Header_inv in Hl.
    + pose proof (header_complete false lines Hw Hne) as HF.
      rewrite Forall_forall in HF. by apply HF.
  - apply bucket_of_Package. unfold is_package. by rewrite strip_terminated.
  - apply terminated_complete. by apply (well_cut_elem lines).
  - apply Forall_forall. intros l (i & -> & Hi)%list_elem_of_fmap.
    by destruct (import_line_bucket _ _ Hi) as (H1 & H2 & H3).
  - apply Forall_forall. intros l (l0 & -> & Hl)%list_elem_of_fmap.
    apply pick_elem in Hl as [_ [f' Hl]].
    by apply bucket_Body_fix_content, (bucket_of_Body_found f').
  - apply well_cut_fix_content, (well_cut_sublist _ lines); [|done].
    apply pick_sublist.
Qed.

Lemma second_run_well_cut : well_cut L2.
Proof using Hpkg.
  destruct second_run_buckets as (H1 & [_ H2] & H3 & _ & H5).
  unfold L2, emitted_lines.
  apply well_cut_app. { apply (Forall_impl _ _ _ H1). by intros l [_ H]. }
  apply (well_cut_app [_; _]).
  { repeat constructor; [done|]. exists []. split; [done | apply not_elem_of_nil]. }
  apply well_cut_app. { apply (Forall_impl _ _ _ H3). by intros l [_ H]. }
  apply (well_cut_app [_]); [|done].
  repeat constructor. exists []. split; [done | apply not_elem_of_nil].
Qed.

Lemma second_run_pick b :
  pick b false L2 =
  match b with
  | Header => header_of text
  | Package => [terminated pkg]
  | Import => (λ imp, imp ++ [LF]) <$> imports_of text
  | Body => [LF] :: [LF] :: body_lines
  end.
Proof using Hpkg.
  destruct second_run_buckets as (H1 & [H2 _] & H3 & H4 & _).
  assert (Forall (λ l, bucket_of false l = Header) (header_of text)) as H1'.
  { apply (Forall_impl _ _ _ H1). by intros l [H _]. }
  assert (Forall (λ l, bucket_of true l = Import)
                 ((λ imp, imp ++ [LF]) <$> imports_of text)) as H3'.
  { apply (Forall_impl _ _ _ H3). by intros l [H _]. }
  assert (bucket_of true [LF] = Body) as HLF by (vm_compute; reflexivity).
  unfold L2, emitted_lines.
  rewrite (pick_app_uniform b Header) by done.
  rewrite pick_cons, H2, (bool_decide_eq_true_2 (Package = Package)) by done.
  cbn [orb]. rewrite pick_cons, HLF. cbn [orb].
  rewrite (pick_app_uniform b Import) by done.
  rewrite pick_cons, HLF. cbn [orb]. rewrite (pick_uniform b Body) by done.
  destruct b; repeat (destruct (decide _) as [?|?]; try done);
    cbn [app]; by rewrite ?app_nil_r.
Qed.

(** The state of the loop on the text the first run wrote. *)
Lemma second_run_parse :
  let y := emitted (header_of text) pkg (imports_of text) (body_of text) in
  header_comments (parse (readlines y)) = header_of text
  ∧ package_line (parse (readlines y)) = Some (terminated pkg)
  ∧ imports (parse (readlines y)) = list_to_set (imports_of text)
  ∧ concat (other_lines (parse (readlines y))) = LF :: LF :: body_of text.
Proof using Hpkg.
  cbn zeta. rewrite body_of_lines. fold lines body_lines.
  rewrite emitted_concat. fold L2.
  rewrite (readlines_concat L2) by apply second_run_well_cut.
  destruct (parse_buckets L2) as (-> & -> & -> & ->).
  rewrite !second_run_pick. repeat split; try done.
  f_equal. rewrite <- list_fmap_compose.
  rewrite <- (list_fmap_id (imports_of text)) at 2.
  apply Forall_fmap_ext_1, Forall_forall. intros i Hi. simpl.
  by destruct (import_line_bucket _ _ Hi) as (_ & E & _).
Qed.

End SecondRunParse.

Section SecondRunFacts.
Implicit Types (s l t pkg text body B : str) (imps : gset str).

Lemma contains_hilog_dot_LF s :
  contains hilog_dot (LF :: s) = contains hilog_dot s.
Proof.
  change (contains hilog_dot (LF :: s))
    with (startswith (LF :: s) hilog_dot || contains hilog_dot s).
  assert (startswith (LF :: s) hilog_dot = false) as ->; [|done].
  vm_compute. reflexivity.
Qed.

(** Reconciling an import block that was already reconciled changes
    nothing, unless the body has come to mention [HiLog.] since. *)
Lemma reconstruct_imports_again imps body body' :
  (contains hilog_dot body' = true → contains hilog_dot body = true) →
  reconstruct_imports (list_to_set (reconstruct_imports imps body)) body'
  = reconstruct_imports imps body.
Proof.
  intros Hb. set (I := reconstruct_imports imps body).
  assert (old_import ∉ I) as Hold.
  { intros [[_ H]|[H _]]%elem_of_reconstruct_imports; [done | discriminate]. }
  unfold reconstruct_imports at 1.
  rewrite decide_False by (by rewrite elem_of_list_to_set).
  assert (contains hilog_dot body'
          && bool_decide (new_import ∉ (list_to_set I : gset str)) = false) as ->.
  { destruct (contains hilog_dot body') eqn:E; [|done]. simpl.
    apply bool_decide_eq_false_2. intros H. apply H, elem_of_list_to_set.
    apply elem_of_reconstruct_imports. right. by split; [|apply Hb]. }
  rewrite <- (sorted_id I) at 2 by apply reconstruct_imports_sorted.
  apply sorted_unique, elements_list_to_set, reconstruct_imports_NoDup.
Qed.

(** A text is never two line feeds followed by its own rewrite. *)
Lemma fix_content_grows B : B ≠ LF :: LF :: fix_content B.
Proof.
  remember (length B) as n eqn:Hn. revert B Hn.
  induction n as [n IH] using lt_wf_ind. intros B Hn E.
  apply (IH (length (fix_content B))) with (B := fix_content B); [|done|].
  - rewrite Hn. rewrite E at 2. simpl. lia.
  - rewrite E at 1.
    by rewrite !fix_content_cons_cut by by apply space_is_cut.
Qed.

Lemma second_run_parts text pkg :
  package_line (parse (readlines text)) = Some pkg →
  let y := emitted (header_of text) pkg (imports_of text) (body_of text) in
  header_of y = header_of text
  ∧ package_line (parse (readlines y)) = Some (terminated pkg)
  ∧ body_of y = LF :: LF :: fix_content (body_of text)
  ∧ imports_of y =
      reconstruct_imports (list_to_set (imports_of text)) (body_of y).
Proof.
  intros Hpkg y.
  destruct (second_run_parse text pkg Hpkg) as (H1 & H2 & H3 & H4).
  fold y in H1, H2, H3, H4. unfold header_of at 1, imports_of at 1, body_of at 1 2.
  rewrite H1, H2, H3, H4.
  by rewrite !fix_content_cons_cut by by apply space_is_cut.
Qed.

End SecondRunFacts.

Section BodyLines.
Implicit Types (s l t p r pkg text rest : str) (ls lines : list str)
  (f : bool) (b : Bucket).

Lemma pick_elem_2 b f ls l :
  l ∈ ls → (∀ f', bucket_of f' l = b) → l ∈ pick b f ls.
Proof.
  intros Hl Hb. revert f. induction ls as [|l' ls IH]; intros f.
  { by apply elem_of_nil in Hl. }
  rewrite pick_cons. apply elem_of_app.
  apply elem_of_cons in Hl as [<-|Hl].
  - left. rewrite Hb, decide_True by done. left.
  - right. by apply IH.
Qed.


(** The lines of the rewritten body are the rewritten body lines. *)
Lemma readlines_body_of text :
  readlines (body_of text) = fix_content <$> pick Body false (readlines text).
Proof.
  rewrite body_of_lines. apply readlines_concat, well_cut_fix_content.
  apply (well_cut_sublist _ (readlines text)); [apply pick_sublist|].
  apply readlines_well_cut.
Qed.



End BodyLines.

(** ** From a line of the file to a line of the body *)




(** ** A second run *)

Section Again.
Implicit Types (text y pkg : str).

Lemma rewritten_inv text y :
  rewritten text = Some y →
  ∃ pkg, package_line (parse (readlines text)) = Some pkg
         ∧ y = emitted (header_of text) pkg (imports_of text) (body_of text).
Proof.
  destruct (package_line (parse (readlines text))) as [pkg|] eqn:E.
  - rewrite (rewritten_Some _ _ E). intros [= <-]. by exists pkg.
  - by rewrite (rewritten_None _ E).
Qed.

Lemma emitted_front header pkg sorted_imports body :
  emitted header pkg sorted_imports body =
  (concat header ++ terminated pkg ++ [LF]
   ++ concat ((λ imp, imp ++ [LF]) <$> sorted_imports) ++ [LF]) ++ body.
Proof. unfold emitted, terminated. by rewrite <- !app_assoc. Qed.

End Again.

(** X6.  On the text a run has written, the next run finds the same header
    lines and the same package line, now with its line feed; its body is
    the first body rewritten once more behind two more line feeds, and its
    import block is the first one reconciled against that body. *)
Theorem run_on_own_output text y :
  rewritten text = Some y →
  ∃ pkg, package_line (parse (readlines text)) = Some pkg
    ∧ header_of y = header_of text
    ∧ package_line (parse (readlines y)) = Some (terminated pkg)
    ∧ body_of y = LF :: LF :: fix_content (body_of text)
    ∧ imports_of y =
        reconstruct_imports (list_to_set (imports_of text)) (body_of y)
    ∧ rewritten y =
        Some (emitted (header_of text) (terminated pkg) (imports_of y) (body_of y)).
Proof.
  intros (pkg & Hpkg & ->)%rewritten_inv. exists pkg.
  destruct (second_run_parts text pkg Hpkg) as (H1 & H2 & H3 & H4).
  repeat split; try done.
  rewrite (rewritten_Some _ _ H2). by rewrite H1.
Qed.

Definition bare_package : str := text_of ["// note"; "package a"; "val x = 1"].

Lemma run_on_own_output_witness :
  ∃ pkg, package_line (parse (readlines bare_package)) = Some pkg
    ∧ header_of (text_of ["// note"; "package a"; ""; ""; "val x = 1"])
      = header_of bare_package
    ∧ package_line (parse (readlines
        (text_of ["// note"; "package a"; ""; ""; "val x = 1"])))
      = Some (terminated pkg)
    ∧ body_of (text_of ["// note"; "package a"; ""; ""; "val x = 1"])
      = LF :: LF :: fix_content (body_of bare_package)
    ∧ imports_of (text_of ["// note"; "package a"; ""; ""; "val x = 1"])
      = reconstruct_imports (list_to_set (imports_of bare_package))
          (body_of (text_of ["// note"; "package a"; ""; ""; "val x = 1"]))
    ∧ rewritten (text_of ["// note"; "package a"; ""; ""; "val x = 1"])
      = Some (emitted (header_of bare_package) (terminated pkg)
                (imports_of (text_of ["// note"; "package a"; ""; ""; "val x = 1"]))
                (body_of (text_of ["// note"; "package a"; ""; ""; "val x = 1"]))).
Proof.
  apply (run_on_own_output bare_package
           (text_of ["// note"; "package a"; ""; ""; "val x = 1"])).
  vm_compute. reflexivity.
Defined.

(** X7.  When the first run left nothing in the body for the rewrite to
    change, the second run writes the first result with two line feeds
    added in front of the body and nothing else changed. *)
Theorem stable_body_gains_two_line_feeds text y :
  rewritten text = Some y → fix_content (body_of text) = body_of text →
  ∃ front, y = front ++ body_of text
           ∧ rewritten y = Some (front ++ LF :: LF :: body_of text).
Proof.
  intros (pkg & Hpkg & ->)%rewritten_inv Hstable.
  destruct (second_run_parts text pkg Hpkg) as (H1 & H2 & H3 & H4).
  exists (concat (header_of text) ++ terminated pkg ++ [LF]
          ++ concat ((λ imp, imp ++ [LF]) <$> imports_of text) ++ [LF]).
  split; [apply emitted_front|].
  rewrite (rewritten_Some _ _ H2), emitted_front, terminated_idemp.
  rewrite H4, H3, H1, Hstable.
  assert (reconstruct_imports (list_to_set (imports_of text))
            (LF :: LF :: body_of text) = imports_of text) as ->; [|done].
  apply reconstruct_imports_again. by rewrite !contains_hilog_dot_LF.
Qed.

Lemma stable_body_gains_two_line_feeds_witness :
  ∃ front, text_of ["// note"; "package a"; ""; ""; "val x = 1"]
           = front ++ body_of bare_package
           ∧ rewritten (text_of ["// note"; "package a"; ""; ""; "val x = 1"])
             = Some (front ++ LF :: LF :: body_of bare_package).
Proof.
  apply (stable_body_gains_two_line_feeds bare_package
           (text_of ["// note"; "package a"; ""; ""; "val x = 1"]));
    vm_compute; reflexivity.
Defined.

(** X8.  The text a run writes is never the text it read: whenever the
    function gets as far as writing, the file changes. *)
Theorem rewrite_never_reproduces_input text y :
  rewritten text = Some y → y ≠ text.
Proof.
  intros H ->. pose proof H as (pkg & Hpkg & E)%rewritten_inv.
  destruct (second_run_parts text pkg Hpkg) as (_ & _ & H3 & _).
  cbn zeta in H3. rewrite <- E in H3.
  by apply (fix_content_grows (body_of text)).
Qed.

Lemma rewrite_never_reproduces_input_witness :
  rewritten (text_of ["package a"; ""; ""]) = Some (text_of ["package a"; ""; ""; ""; ""])
  ∧ bool_decide (text_of ["package a"; ""; ""; ""; ""] = text_of ["package a"; ""; ""])
    = false.
Proof.
  split; [vm_compute; reflexivity|].
  apply bool_decide_eq_false_2,
    (rewrite_never_reproduces_input (text_of ["package a"; ""; ""])).
  vm_compute. reflexivity.
Defined.

(** ** What a run leaves alone *)


(** ** The import block and the import lines *)

Section ImportLines.
Implicit Types (l i text : str) (ls before after : list str) (f : bool).

Lemma pick_Import_elem f ls l :
  l ∈ pick Import f ls ↔ l ∈ ls ∧ is_package l = false ∧ is_import l = true.
Proof.
  split.
  - intros [H [f' Hb]]%pick_elem. by apply bucket_of_Import_spec in Hb.
  - intros (H & H1 & H2). apply pick_elem_2; [done|]. intros f'.
    unfold bucket_of. unfold is_package, is_import in *. by rewrite H1, H2.
Qed.

Lemma imports_parse_elem text i :
  i ∈ imports (parse (readlines text)) ↔
  ∃ l, l ∈ readlines text ∧ is_package l = false ∧ is_import l = true
       ∧ strip l = i.
Proof.
  destruct (parse_buckets (readlines text)) as (_ & _ & -> & _).
  rewrite elem_of_list_to_set, list_elem_of_fmap. split.
  - intros (l & -> & (H & H1 & H2)%pick_Import_elem). by exists l.
  - intros (l & H & H1 & H2 & <-). exists l. split; [done|].
    by apply pick_Import_elem.
Qed.

Lemma import_block_elem text i :
  i ∈ imports_of text ↔
  (i ≠ old_import
   ∧ ∃ l, l ∈ readlines text ∧ is_package l = false ∧ is_import l = true
          ∧ strip l = i)
  ∨ (i = new_import ∧ contains hilog_dot (body_of text) = true).
Proof.
  unfold imports_of. rewrite elem_of_reconstruct_imports, imports_parse_elem.
  tauto.
Qed.

End ImportLines.

(** X10.  The import block holds exactly the stripped text of the import
    lines of the file, the old logging import excepted, and the new logging
    import when the rewritten body mentions [HiLog.]: no other import is
    ever lost or invented. *)
Theorem import_block_is_the_import_lines text i :
  i ∈ imports_of text ↔
  (i ≠ old_import
   ∧ ∃ l, l ∈ readlines text ∧ is_package l = false ∧ is_import l = true
          ∧ strip l = i)
  ∨ (i = new_import ∧ contains hilog_dot (body_of text) = true).
Proof.
  split.
  - intros H. by apply import_block_elem.
  - intros H. by apply import_block_elem.
Qed.

(** ** Header and body by position *)

Section ByPosition.
Implicit Types (l pk : str) (ls before after : list str).

Lemma pick_before ls :
  Forall (λ l, is_package l = false) ls →
  pick Package false ls = []
  ∧ pick Header false ls =
      filter (λ l, comment_or_blank (strip l) = true) ls
  ∧ pick Body false ls =
      filter (λ l, is_import l = false ∧ comment_or_blank (strip l) = false) ls.
Proof.
  induction 1 as [|l ls Hl _ (IH1 & IH2 & IH3)]; [done|].
  rewrite !pick_cons, !filter_cons.
  assert (bucket_of false l ≠ Package) as Hb by (by rewrite bucket_of_Package, Hl).
  rewrite bool_decide_eq_false_2 by done. cbn [orb]. rewrite IH1, IH2, IH3.
  clear Hb. unfold bucket_of. unfold is_package, is_import in *. rewrite Hl.
  destruct (comment_or_blank (strip l)) eqn:Hc.
  - destruct (comment_or_blank_not_keyword _ Hc) as [_ ->]. cbn [negb andb].
    repeat (destruct (decide _) as [?|?]); simpl;
      first [done | exfalso; intuition congruence].
  - destruct (startswith (strip l) kw_import) eqn:Hi; cbn [negb andb];
      repeat (destruct (decide _) as [?|?]); simpl;
      first [done | exfalso; intuition congruence].
Qed.

Lemma pick_after ls :
  pick Body true ls =
  filter (λ l, is_import l = false ∧ is_package l = false) ls.
Proof.
  induction ls as [|l ls IH]; [done|].
  rewrite pick_cons, filter_cons. cbn [orb]. rewrite IH.
  unfold bucket_of, is_package, is_import. cbn [negb andb].
  destruct (startswith (strip l) kw_package);
    destruct (startswith (strip l) kw_import);
    repeat (destruct (decide _) as [?|?]); simpl;
    first [done | exfalso; intuition congruence].
Qed.

Lemma parse_by_position before pk after :
  Forall (λ l, is_package l = false) before → is_package pk = true →
  header_comments (parse (before ++ pk :: after)) =
    filter (λ l, comment_or_blank (strip l) = true) before
  ∧ other_lines (parse (before ++ pk :: after)) =
    filter (λ l, is_import l = false ∧ comment_or_blank (strip l) = false) before
    ++ filter (λ l, is_import l = false ∧ is_package l = false) after.
Proof.
  intros (H1 & H2 & H3)%pick_before Hpk%(bucket_of_Package false).
  destruct (parse_buckets (before ++ pk :: after)) as (-> & -> & _).
  rewrite !pick_app, H1, H2, H3.
  rewrite (bool_decide_eq_false_2 ([] ≠ [])) by (by intros []). cbn [orb].
  rewrite !pick_cons, Hpk, bool_decide_eq_true_2 by done. cbn [orb].
  rewrite pick_Header_found, pick_after.
  repeat (destruct (decide _) as [?|?]); try done. by rewrite !app_nil_r.
Qed.

End ByPosition.

(** X11.  With the first package line at a given position, the header is
    made of the comment and blank lines before it, in order; the body is
    made of the other lines before it that are not imports, followed by the
    lines after it that are neither imports nor package lines, comments and
    blank lines included. *)
Theorem header_and_body_by_position before pk after :
  Forall (λ l, is_package l = false) before → is_package pk = true →
  header_comments (parse (before ++ pk :: after)) =
    filter (λ l, comment_or_blank (strip l) = true) before
  ∧ other_lines (parse (before ++ pk :: after)) =
    filter (λ l, is_import l = false ∧ comment_or_blank (strip l) = false) before
    ++ filter (λ l, is_import l = false ∧ is_package l = false) after.
Proof.
  intros Hb Hpk. destruct (parse_by_position before pk after Hb Hpk) as [H1 H2].
  by split.
Qed.

Lemma header_and_body_by_position_witness :
  header_comments (parse ([lit "// a"; lit "val x = 1"; lit "import b"]
                          ++ lit "package p" ::
                          [lit "// c"; lit "import d"; lit "package q"; lit "fun f()"]))
  = filter (λ l, comment_or_blank (strip l) = true)
           [lit "// a"; lit "val x = 1"; lit "import b"]
  ∧ other_lines (parse ([lit "// a"; lit "val x = 1"; lit "import b"]
                        ++ lit "package p" ::
                        [lit "// c"; lit "import d"; lit "package q"; lit "fun f()"]))
  = filter (λ l, is_import l = false ∧ comment_or_blank (strip l) = false)
           [lit "// a"; lit "val x = 1"; lit "import b"]
    ++ filter (λ l, is_import l = false ∧ is_package l = false)
              [lit "// c"; lit "import d"; lit "package q"; lit "fun f()"].
Proof.
  apply (header_and_body_by_position
           [lit "// a"; lit "val x = 1"; lit "import b"] (lit "package p")
           [lit "// c"; lit "import d"; lit "package q"; lit "fun f()"]).
  - repeat constructor; vm_compute; reflexivity.
  - vm_compute. reflexivity.
Defined.

(** ** Two runs on one file *)

Section NewlineRoundTrip.
Implicit Types (s l t pkg text raw linesep : str) (c : char).








End NewlineRoundTrip.




(** ** The doubled prefix comes from the rewrite itself *)

Definition hi : str := Eval cbv in lit "Hi".

Section Doubled.
Implicit Types (s p r t a b chunk pre post : str).

Lemma collapse_HiLog_suffix a :
  ∃ a', replace hihilog hilog (a ++ hilog) = a' ++ hilog.
Proof.
  remember (length a) as n eqn:Hn. revert a Hn.
  induction n as [n IH] using lt_wf_ind. intros a Hn.
  destruct a as [|c a0]; [by exists []|].
  destruct (startswith ((c :: a0) ++ hilog) hihilog) eqn:E.
  - rewrite replace_hit by done. apply startswith_spec in E as [t Ht].
    rewrite Ht, drop_app_length.
    apply app_eq_inv in Ht as [(k & Ha & ->) | (k & Hh & Hl)].
    + destruct (IH (length k)) with (a := k) as [k' Hk']; [|done|].
      { rewrite Hn, Ha, length_app. simpl. lia. }
      exists (hilog ++ k'). by rewrite Hk', app_assoc.
    + destruct k as [|k1 [|k2 [|k3 [|k4 [|k5 [|k6 k]]]]]]; simpl in Hl.
      * subst t. by exists hilog.
      * injection Hl as <- <-.
        change hihilog with ([72; 105; 72; 105; 76; 111] ++ [103]) in Hh.
        by apply app_inj_2 in Hh as [_ Hh].
      * injection Hl as <- <- <-.
        change hihilog with ([72; 105; 72; 105; 76] ++ [111; 103]) in Hh.
        by apply app_inj_2 in Hh as [_ Hh].
      * injection Hl as <- <- <- <-.
        change hihilog with ([72; 105; 72; 105] ++ [76; 111; 103]) in Hh.
        by apply app_inj_2 in Hh as [_ Hh].
      * injection Hl as <- <- <- <- <-.
        change hihilog with ([72; 105; 72] ++ [105; 76; 111; 103]) in Hh.
        by apply app_inj_2 in Hh as [_ Hh].
      * injection Hl as <- <- <- <- <- <-. by exists [].
      * discriminate.
  - rewrite <- app_comm_cons, replace_miss by done.
    destruct (IH (length a0)) with (a := a0) as [a' Ha']; [|done|].
    { rewrite Hn. simpl. lia. }
    exists (c :: a'). by rewrite Ha'.
Qed.

Lemma collapse_kept_rel a a' chunk b :
  startswith chunk log_dot = true →
  (∀ a b, no_straddle hihilog (a ++ chunk) b) →
  contains hihilog chunk = false →
  replace hihilog hilog (a ++ log_name) = a' ++ log_name →
  replace hihilog hilog (a ++ chunk ++ b) =
  a' ++ chunk ++ replace hihilog hilog b.
Proof.
  intros [t ->]%startswith_spec Hr Hc Ha'.
  assert (replace hihilog hilog (a ++ log_dot ++ t) = a' ++ log_dot ++ t) as E.
  { assert (∀ u, u ++ log_dot ++ t = (u ++ log_name) ++ 46 :: t) as Hu.
    { intros u. by rewrite <- app_assoc. }
    rewrite !Hu, replace_app_cut, Ha'; [|done|].
    - rewrite (replace_absent _ _ t); [done|].
      by apply contains_false_app_r in Hc.
    - refine (bool_decide_unpack _ _). vm_compute. exact I. }
  by rewrite app_assoc, replace_app_ns, E, <- app_assoc.
Qed.

Lemma apply_patterns_nil_body pats : Forall (λ pr, fst pr ≠ []) pats →
  apply_patterns pats [] = [].
Proof.
  induction 1 as [|[p r] pats Hp _ IH]; [done|].
  rewrite apply_patterns_cons, replace_nil. by destruct p.
Qed.

Lemma doubled_prefix p r pre post :
  (p, r) ∈ known_patterns →
  ∃ pre', fix_content (pre ++ hi ++ p ++ post) =
          pre' ++ hi ++ r ++ fix_content post.
Proof.
  intros [k Hk]%list_elem_of_lookup.
  destruct (known_patterns_checks _ _ _ Hk)
    as (HB & Hp & Hpp & HA & Hs & Hr & Hc & _).
  destruct (collapse_HiLog_suffix pre) as [a' Ha'].
  exists (apply_patterns known_patterns a').
  rewrite !fix_content_unfold, (app_assoc pre hi).
  rewrite (collapse_kept_rel _ (a' ++ hi)); try done.
  - rewrite (apply_patterns_one _ k p r) by done.
    rewrite <- (app_nil_r hi) at 1.
    rewrite apply_patterns_kept, apply_patterns_nil_body, app_nil_r.
    + by rewrite <- !app_assoc.
    + apply known_patterns_nonempty.
    + apply forallb_keeps. vm_compute. reflexivity.
  - intros a b. by apply clear_r_no_straddle.
  - by rewrite <- !app_assoc.
Qed.

End Doubled.

(** X13.  A recognized call opening that already stands behind [Hi], as in
    a call to [HiLog] that still uses a raw tag, is rewritten all the same:
    the result has the doubled prefix [HiHiLog], which line 47 only removes
    on a later run. *)
Theorem doubled_prefix_is_produced p r pre post :
  (p, r) ∈ known_patterns →
  ∃ pre', fix_content (pre ++ hi ++ p ++ post) =
          pre' ++ hi ++ r ++ fix_content post
          ∧ startswith (hi ++ r) hihilog = true.
Proof.
  intros H. destruct (doubled_prefix p r pre post H) as [pre' E].
  exists pre'. split; [done|].
  apply list_elem_of_lookup in H as [k Hk]. revert Hk.
  do 12 (destruct k as [|k]; [by intros [= <- <-]|]). done.
Qed.

Lemma doubled_prefix_is_produced_witness :
  ∃ pre', fix_content (lit "  " ++ hi ++ lit "Log.d(TAG," ++ lit " msg)") =
          pre' ++ hi ++ lit "HiLog.d(HiLog.TAG_ISLAND," ++ fix_content (lit " msg)")
          ∧ startswith (hi ++ lit "HiLog.d(HiLog.TAG_ISLAND,") hihilog = true.
Proof.
  apply (doubled_prefix_is_produced (lit "Log.d(TAG,")
           (lit "HiLog.d(HiLog.TAG_ISLAND,") (lit "  ") (lit " msg)")).
  apply (list_elem_of_lookup_2 _ 0). vm_compute. reflexivity.
Defined.

(** ** The walk over the source tree *)


Section Walk.
(** [os.linesep] and [os.path.join] of the platform. *)
Variable linesep : str.
Variable path_join : str → str → str.






End Walk.


(** ** The rewrite and the lines of the body *)

(** X15.  The rewritten body has exactly the body lines of the file, in
    order, each rewritten by itself: the rewrite neither joins nor splits
    nor drops a line. *)
Theorem body_is_rewritten_line_by_line text :
  readlines (body_of text) =
  fix_content <$> other_lines (parse (readlines text)).
Proof.
  destruct (parse_buckets (readlines text)) as (_ & -> & _).
  apply readlines_body_of.
Qed.

(** X16.  A character that occurs in none of the thirteen searched texts,
    such as a line feed, a blank or a semicolon, splits the body into two
    parts that are rewritten independently of each other. *)
Theorem rewrite_splits_at_foreign_character x a b :
  Forall (λ p, x ∉ p) searched →
  fix_content (a ++ x :: b) = fix_content a ++ x :: fix_content b.
Proof.
  intros H. pose proof (fix_content_cut x a b H) as E. by rewrite E.
Qed.

Lemma rewrite_splits_at_foreign_character_witness :
  fix_content (lit "Log.d(TAG, a)" ++ 59 :: lit "Log.d(TAG, b)") =
  fix_content (lit "Log.d(TAG, a)") ++ 59 :: fix_content (lit "Log.d(TAG, b)").
Proof.
  apply (rewrite_splits_at_foreign_character 59).
  repeat constructor; refine (bool_decide_unpack _ _); vm_compute; exact I.
Defined.

(** X17.  The rewrite keeps the white space around a line, and a line that
    is neither a package line nor an import line is neither after the
    rewrite: a later run puts every rewritten body line in the body
    again. *)
Theorem rewritten_body_line_stays_body l :
  is_package l = false → is_import l = false →
  strip (fix_content l) = fix_content (strip l)
  ∧ is_package (fix_content l) = false ∧ is_import (fix_content l) = false.
Proof.
  intros H1 H2. split; [apply strip_fix_content|].
  apply bucket_of_true_Body, bucket_Body_fix_content, bucket_of_true_Body.
  by split.
Qed.

Lemma rewritten_body_line_stays_body_witness :
  strip (fix_content (lit "  Log.d(TAG, important pkg) " ++ [LF])) =
  fix_content (strip (lit "  Log.d(TAG, important pkg) " ++ [LF]))
  ∧ is_package (fix_content (lit "  Log.d(TAG, important pkg) " ++ [LF])) = false
  ∧ is_import (fix_content (lit "  Log.d(TAG, important pkg) " ++ [LF])) = false.
Proof.
  apply (rewritten_body_line_stays_body
           (lit "  Log.d(TAG, important pkg) " ++ [LF]));
    vm_compute; reflexivity.
Defined.
